(** * roachpulse: the entity cache and the synchronisation engine of [main.go]

    A shallow embedding of [src/main.go].  Go pointers to users, milestones
    and repositories are locations in a typed heap, so that "the same
    instance" is equality of locations; Go maps are [gmap]s; a Go slice that
    the code compares against [nil] is an [option (list _)]; a nil-pointer
    dereference is an explicit outcome. *)

From Stdlib Require Import Ascii String.
From stdpp Require Import gmap strings list sorting.

Open Scope Z_scope.

(** ** Pointers, slices and the heap *)

(** A location of the heap; a Go pointer is [None] (nil) or [Some l]. *)
Definition loc := nat.
Abbreviation ptr := (option loc).

(** A Go slice: [None] is the nil slice, [Some l] a non-nil slice (which may
    be empty).  The code of [refresh] tells the two apart. *)
Abbreviation slice A := (option (list A)).

(** Go's [append(s, xs...)]: appending nothing to a nil slice leaves it nil. *)
Definition append {A} (s : slice A) (xs : list A) : slice A :=
  match s, xs with
  | None, [] => None
  | None, _ => Some xs
  | Some l, _ => Some (l ++ xs)
  end.

(** [len(s)] *)
Definition len {A} (s : slice A) : nat :=
  match s with None => 0%nat | Some l => length l end.

(** [time.Time] and [time.Duration], both counted in nanoseconds. *)
Definition Time := Z.
Definition Duration := Z.

(** The entities of go-github that the program shares by reference.  Of
    their many fields the program reads [ID] only; one payload field stands
    for the rest. *)
Module User.
Record t := mk { ID : option Z; Login : option string }.
End User.

Module Milestone.
Record t := mk { ID : option Z; Title : option string }.
End Milestone.

Module Repository.
Record t := mk { ID : option Z; Name : option string }.
End Repository.

Record PullRequestLinks := mkLinks { URL : option string }.

(** The records that hold references are parametric in what a reference is:
    a pointer in memory, the referred value itself in a JSON document. *)
Module Timeline.
Record t (U M : Type) := mk {
    Event : option string;
    Actor : U;
    Assignee : U;
    Milestone : M }.
Arguments mk {U M}.
Arguments Event {U M}.
Arguments Actor {U M}.
Arguments Assignee {U M}.
Arguments Milestone {U M}.
End Timeline.

Module RepositoryCommit.
Record t (U : Type) := mk {
    SHA : option string;
    Author : U;
    Committer : U }.
Arguments mk {U}.
Arguments SHA {U}.
Arguments Author {U}.
Arguments Committer {U}.
End RepositoryCommit.

(** [type Issue struct { github.Issue; Timeline; Commits }], the embedded
    struct flattened. *)
Module Issue.
Record t (U M R : Type) := mk {
    Number : option Z;
    Title : option string;
    User : U;
    Assignee : U;
    ClosedBy : U;
    Assignees : list U;
    Milestone : M;
    Repository : R;
    PullRequestLinks : option PullRequestLinks;
    CreatedAt : option Time;
    ClosedAt : option Time;
    Timeline : slice (option (Timeline.t U M));
    Commits : slice (option (RepositoryCommit.t U)) }.
Arguments mk {U M R}.
Arguments Number {U M R}.
Arguments Title {U M R}.
Arguments User {U M R}.
Arguments Assignee {U M R}.
Arguments ClosedBy {U M R}.
Arguments Assignees {U M R}.
Arguments Milestone {U M R}.
Arguments Repository {U M R}.
Arguments PullRequestLinks {U M R}.
Arguments CreatedAt {U M R}.
Arguments ClosedAt {U M R}.
Arguments Timeline {U M R}.
Arguments Commits {U M R}.
End Issue.

(** In memory every reference is a pointer. *)
Abbreviation TimelineP := (Timeline.t ptr ptr).
Abbreviation CommitP := (RepositoryCommit.t ptr).
Abbreviation IssueP := (Issue.t ptr ptr ptr).

(** The objects that pointers refer to.  The program never writes to a user,
    milestone or repository once it exists. *)
Record Heap := mkHeap {
  userObjs : list User.t;
  milestoneObjs : list Milestone.t;
  repoObjs : list Repository.t }.

(** [type Project struct].  The three entity maps hold pointers, and a Go
    map answers nil for an absent key. *)
Module Project.
Record t := mk {
    Owner : string;
    Repo : string;
    RefreshedAt : Time;
    issues : gmap Z IssueP;
    users : gmap Z ptr;
    milestones : gmap Z ptr;
    repos : gmap Z ptr }.

Definition with_issues (p : t) (m : gmap Z IssueP) : t :=
    mk (Owner p) (Repo p) (RefreshedAt p) m (users p) (milestones p) (repos p).
Definition with_users (p : t) (m : gmap Z ptr) : t :=
    mk (Owner p) (Repo p) (RefreshedAt p) (issues p) m (milestones p) (repos p).
Definition with_milestones (p : t) (m : gmap Z ptr) : t :=
    mk (Owner p) (Repo p) (RefreshedAt p) (issues p) (users p) m (repos p).
Definition with_repos (p : t) (m : gmap Z ptr) : t :=
    mk (Owner p) (Repo p) (RefreshedAt p) (issues p) (users p) (milestones p) m.
Definition with_RefreshedAt (p : t) (t0 : Time) : t :=
    mk (Owner p) (Repo p) t0 (issues p) (users p) (milestones p) (repos p).
End Project.

(** [m[k]] on a Go map of pointers. *)
Definition mapGet (m : gmap Z ptr) (k : Z) : ptr := default None (m !! k).

(** ** The getters of go-github: nil receiver or nil field gives 0 *)

Definition User_GetID (h : Heap) (u : ptr) : Z :=
  match u with
  | None => 0
  | Some l => match userObjs h !! l with
              | Some o => default 0 (User.ID o)
              | None => 0
              end
  end.

Definition Milestone_GetID (h : Heap) (m : ptr) : Z :=
  match m with
  | None => 0
  | Some l => match milestoneObjs h !! l with
              | Some o => default 0 (Milestone.ID o)
              | None => 0
              end
  end.

Definition Repository_GetID (h : Heap) (r : ptr) : Z :=
  match r with
  | None => 0
  | Some l => match repoObjs h !! l with
              | Some o => default 0 (Repository.ID o)
              | None => 0
              end
  end.

(** ** The interner *)

(** [internUser(u **github.User)]: the new store and the new value of [*u]. *)
Definition internUser (h : Heap) (p : Project.t) (u : ptr) : Project.t * ptr :=
  let id := User_GetID h u in
  if decide (id ≠ 0) then
    match mapGet (Project.users p) id with
    | Some e => (p, Some e)
    | None => (Project.with_users p (<[id := u]> (Project.users p)), u)
    end
  else (p, u).

Definition internMilestone (h : Heap) (p : Project.t) (m : ptr) : Project.t * ptr :=
  let id := Milestone_GetID h m in
  if decide (id ≠ 0) then
    match mapGet (Project.milestones p) id with
    | Some e => (p, Some e)
    | None => (Project.with_milestones p (<[id := m]> (Project.milestones p)), m)
    end
  else (p, m).

Definition internRepo (h : Heap) (p : Project.t) (r : ptr) : Project.t * ptr :=
  let id := Repository_GetID h r in
  if decide (id ≠ 0) then
    match mapGet (Project.repos p) id with
    | Some e => (p, Some e)
    | None => (Project.with_repos p (<[id := r]> (Project.repos p)), r)
    end
  else (p, r).

(** [for j := range i.Assignees { p.internUser(&i.Assignees[j]) }] *)
Fixpoint internUsers (h : Heap) (p : Project.t) (us : list ptr)
  : Project.t * list ptr :=
  match us with
  | [] => (p, [])
  | u :: us' =>
      let '(p1, u1) := internUser h p u in
      let '(p2, us2) := internUsers h p1 us' in
      (p2, u1 :: us2)
  end.

(** [for _, t := range i.Timeline { ... }]: the elements are pointers, and
    reading a field of a nil element panics ([None]). *)
Fixpoint internTimeline (h : Heap) (p : Project.t) (ts : list (option TimelineP))
  : option (Project.t * list (option TimelineP)) :=
  match ts with
  | [] => Some (p, [])
  | None :: _ => None
  | Some t :: ts' =>
      let '(p1, a) := internUser h p (Timeline.Actor t) in
      let '(p2, b) := internUser h p1 (Timeline.Assignee t) in
      let '(p3, m) := internMilestone h p2 (Timeline.Milestone t) in
      '(p4, ts4) ← internTimeline h p3 ts';
      Some (p4, Some (Timeline.mk (Timeline.Event t) a b m) :: ts4)
  end.

(** [for _, c := range i.Commits { ... }] *)
Fixpoint internCommits (h : Heap) (p : Project.t) (cs : list (option CommitP))
  : option (Project.t * list (option CommitP)) :=
  match cs with
  | [] => Some (p, [])
  | None :: _ => None
  | Some c :: cs' =>
      let '(p1, a) := internUser h p (RepositoryCommit.Author c) in
      let '(p2, b) := internUser h p1 (RepositoryCommit.Committer c) in
      '(p3, cs3) ← internCommits h p2 cs';
      Some (p3, Some (RepositoryCommit.mk (RepositoryCommit.SHA c) a b) :: cs3)
  end.

(** Ranging over a nil slice runs no iteration and leaves it nil. *)
Definition overSlice {A S} (f : S → list A → option (S * list A))
    (s : S) (xs : slice A) : option (S * slice A) :=
  match xs with
  | None => Some (s, None)
  | Some l => '(s', l') ← f s l; Some (s', Some l')
  end.

(** [internIssue(i *Issue)]: the new store and the new contents of [*i];
    [None] when it panics on a nil element. *)
Definition internIssue (h : Heap) (p : Project.t) (i : IssueP)
  : option (Project.t * IssueP) :=
  let '(p1, u) := internUser h p (Issue.User i) in
  let '(p2, a) := internUser h p1 (Issue.Assignee i) in
  let '(p3, c) := internUser h p2 (Issue.ClosedBy i) in
  let '(p4, asg) := internUsers h p3 (Issue.Assignees i) in
  let '(p5, m) := internMilestone h p4 (Issue.Milestone i) in
  let '(p6, r) := internRepo h p5 (Issue.Repository i) in
  '(p7, tl) ← overSlice (internTimeline h) p6 (Issue.Timeline i);
  '(p8, cm) ← overSlice (internCommits h) p7 (Issue.Commits i);
  Some (p8, Issue.mk (Issue.Number i) (Issue.Title i) u a c asg m r
              (Issue.PullRequestLinks i) (Issue.CreatedAt i) (Issue.ClosedAt i)
              tl cm).

(** The table step shared by the three interners, on one ID space. *)
Definition internRef (getID : ptr → Z) (m : gmap Z ptr) (r : ptr) : gmap Z ptr * ptr :=
  let id := getID r in
  if decide (id ≠ 0) then
    match mapGet m id with
    | Some e => (m, Some e)
    | None => (<[id := r]> m, r)
    end
  else (m, r).

(** A reference is canonical in a table when, its ID being set, the table
    holds that very pointer for the ID. *)
Definition canon (getID : ptr → Z) (m : gmap Z ptr) (r : ptr) : Prop :=
  getID r ≠ 0 → m !! getID r = Some r.

(** Every instance of a table is held under its own ID. *)
Definition map_wf (getID : ptr → Z) (m : gmap Z ptr) : Prop :=
  ∀ k e, m !! k = Some (Some e) → getID (Some e) = k.

(** A table grows: an instance, once held for an ID, stays held for it. *)
Definition map_le (m m' : gmap Z ptr) : Prop :=
  ∀ k e, m !! k = Some (Some e) → m' !! k = Some (Some e).

Record store_wf (h : Heap) (p : Project.t) : Prop := mkStoreWf {
  wf_users : map_wf (User_GetID h) (Project.users p);
  wf_milestones : map_wf (Milestone_GetID h) (Project.milestones p);
  wf_repos : map_wf (Repository_GetID h) (Project.repos p) }.

Record store_le (p p' : Project.t) : Prop := mkStoreLe {
  le_users : map_le (Project.users p) (Project.users p');
  le_milestones : map_le (Project.milestones p) (Project.milestones p');
  le_repos : map_le (Project.repos p) (Project.repos p');
  le_issues : Project.issues p' = Project.issues p;
  le_Owner : Project.Owner p' = Project.Owner p;
  le_Repo : Project.Repo p' = Project.Repo p;
  le_RefreshedAt : Project.RefreshedAt p' = Project.RefreshedAt p }.

Definition userCanon (h : Heap) (p : Project.t) : ptr → Prop :=
  canon (User_GetID h) (Project.users p).
Definition milestoneCanon (h : Heap) (p : Project.t) : ptr → Prop :=
  canon (Milestone_GetID h) (Project.milestones p).
Definition repoCanon (h : Heap) (p : Project.t) : ptr → Prop :=
  canon (Repository_GetID h) (Project.repos p).

(** The references that [internIssue] goes through, per ID space. *)
Definition sliceList {A} (s : slice A) : list A := default [] s.

Definition timelineUsers {U M} (t : option (Timeline.t U M)) : list U :=
  match t with
  | Some t => [Timeline.Actor t; Timeline.Assignee t]
  | None => []
  end.

Definition timelineMilestones {U M} (t : option (Timeline.t U M)) : list M :=
  match t with
  | Some t => [Timeline.Milestone t]
  | None => []
  end.

Definition commitUsers {U} (c : option (RepositoryCommit.t U)) : list U :=
  match c with
  | Some c => [RepositoryCommit.Author c; RepositoryCommit.Committer c]
  | None => []
  end.

Definition userRefs {U M R} (i : Issue.t U M R) : list U :=
  [Issue.User i; Issue.Assignee i; Issue.ClosedBy i] ++ Issue.Assignees i
  ++ concat (timelineUsers <$> sliceList (Issue.Timeline i))
  ++ concat (commitUsers <$> sliceList (Issue.Commits i)).

Definition milestoneRefs {U M R} (i : Issue.t U M R) : list M :=
  Issue.Milestone i :: concat (timelineMilestones <$> sliceList (Issue.Timeline i)).

Definition repoRefs {U M R} (i : Issue.t U M R) : list R :=
  [Issue.Repository i].

(** An issue is interned in a store when each of its references is
    canonical there. *)
Definition issueCanon (h : Heap) (p : Project.t) (i : IssueP) : Prop :=
  Forall (userCanon h p) (userRefs i)
  ∧ Forall (milestoneCanon h p) (milestoneRefs i)
  ∧ Forall (repoCanon h p) (repoRefs i).

(** No element of the two slices is a nil pointer. *)
Definition noNil {U M R} (i : Issue.t U M R) : Prop :=
  Forall is_Some (sliceList (Issue.Timeline i))
  ∧ Forall is_Some (sliceList (Issue.Commits i)).

(** What one call of an interner does to its table [m] and to the
    reference [r] it is given: nothing when the ID is unset, a rewrite to
    the stored instance, or a registration. *)
Definition internCases (getID : ptr → Z) (m : gmap Z ptr) (r : ptr)
    (m' : gmap Z ptr) (r' : ptr) : Prop :=
  (getID r = 0 ∧ m' = m ∧ r' = r)
  ∨ (getID r ≠ 0 ∧ ∃ e, mapGet m (getID r) = Some e ∧ m' = m ∧ r' = Some e)
  ∨ (getID r ≠ 0 ∧ mapGet m (getID r) = None ∧ m' = <[getID r := r]> m ∧ r' = r).

(** ** [makeProject] *)

(** [strings.Split(s, "/")] for a one-byte separator. *)
Fixpoint Split (s : string) (sep : ascii) : list string :=
  match s with
  | EmptyString => [EmptyString]
  | String a s' =>
      if decide (a = sep) then EmptyString :: Split s' sep
      else match Split s' sep with
           | x :: rest => String a x :: rest
           | [] => [String a EmptyString]
           end
  end.

(** [makeProject]; [None] is the [log.Fatal] on a malformed argument. *)
Definition makeProject (project : string) : option Project.t :=
  match Split project "/"%char with
  | [owner; repo] => Some (Project.mk owner repo 0 ∅ ∅ ∅ ∅)
  | _ => None
  end.

(** ** Sample data *)

Definition sampleHeap : Heap :=
  mkHeap
    [User.mk (Some 5) (Some "bob"); User.mk (Some 5) (Some "bob");
     User.mk None (Some "ghost"); User.mk (Some 7) (Some "eve")]
    [Milestone.mk (Some 1) (Some "v1"); Milestone.mk (Some 1) (Some "v1")]
    [Repository.mk (Some 9) (Some "cockroach")].

Definition sampleProject : Project.t :=
  Project.mk "cockroachdb" "cockroach" 0 ∅ ∅ ∅ ∅.

Definition sampleIssue : IssueP :=
  Issue.mk (Some 43) (Some "storage: fix") (Some 0%nat) (Some 1%nat) None
    [Some 1%nat; Some 3%nat] (Some 0%nat) (Some 0%nat)
    (Some (mkLinks (Some "pulls/43"))) (Some 1000) (Some 2000)
    (Some [Some (Timeline.mk (Some "assigned") (Some 1%nat) (Some 2%nat)
                   (Some 1%nat))])
    (Some [Some (RepositoryCommit.mk (Some "abc") (Some 3%nat) (Some 1%nat))]).

(** The references of [rs1] and [rs2] that carry the same set ID are the
    same pointer. *)
Definition sameInstance (getID : ptr → Z) (rs1 rs2 : list ptr) : Prop :=
  ∀ r1 r2, r1 ∈ rs1 → r2 ∈ rs2 → getID r1 ≠ 0 → getID r1 = getID r2 → r1 = r2.

(** [sampleIssue] once interned in the empty store: the duplicate of user 5
    and of milestone 1 are gone. *)
Definition sampleInterned : IssueP :=
  Issue.mk (Some 43) (Some "storage: fix") (Some 0%nat) (Some 0%nat) None
    [Some 0%nat; Some 3%nat] (Some 0%nat) (Some 0%nat)
    (Some (mkLinks (Some "pulls/43"))) (Some 1000) (Some 2000)
    (Some [Some (Timeline.mk (Some "assigned") (Some 0%nat) (Some 2%nat)
                   (Some 0%nat))])
    (Some [Some (RepositoryCommit.mk (Some "abc") (Some 3%nat) (Some 0%nat))]).

Definition sampleStore : Project.t :=
  Project.mk "cockroachdb" "cockroach" 0 ∅
    (<[7 := Some 3%nat]> (<[5 := Some 0%nat]> ∅))
    (<[1 := Some 0%nat]> ∅) (<[9 := Some 0%nat]> ∅).

(** ** Outcomes *)

(** How a piece of the program ends: it returns, it leaves through
    [log.Fatal], or it panics on a nil pointer. *)
Inductive result (A : Type) : Type :=
  | Ok (a : A)
  | Fatal
  | Panic.
Arguments Ok {A}.
Arguments Fatal {A}.
Arguments Panic {A}.

(** ** The statistics of [main]: age of closed pull requests *)

Definition Nanosecond : Duration := 1.
Definition Second : Duration := 1000000000 * Nanosecond.
Definition Hour : Duration := 3600 * Second.

Definition minDuration : Duration := - 2 ^ 63.
Definition maxDuration : Duration := 2 ^ 63 - 1.

(** [t.Sub(u)] of package time, on instants without a monotonic reading:
    the difference, saturated to the range of [Duration]. *)
Definition Time_Sub (t u : Time) : Duration :=
  if decide (t - u < minDuration) then minDuration
  else if decide (maxDuration < t - u) then maxDuration
  else t - u.

(** The body of the loop of [main] on one issue: [Ok None] when the issue
    is skipped, [Ok (Some v)] when [v] is handed to [h.RecordValue], [Panic]
    when [*i.CreatedAt] is a nil dereference.  Go's [/] on integers
    truncates towards zero. *)
Definition recordAge (i : IssueP) : result (option Z) :=
  match Issue.PullRequestLinks i with
  | None => Ok None
  | Some _ =>
      match Issue.ClosedAt i with
      | None => Ok None
      | Some closed =>
          match Issue.CreatedAt i with
          | None => Panic
          | Some created =>
              let age := Z.quot (Time_Sub closed created) (24 * Hour) in
              Ok (Some (if decide (age < 1) then 1 else age))
          end
      end
  end.

(** Issue 42 of the scenario: no pull-request link, never closed. *)
Definition issue42 : IssueP :=
  Issue.mk (Some 42) (Some "a bug") None None None [] None None
    None (Some 1500000000000000000) None None None.

(** Issue 43 of the scenario: a pull request closed 36 hours after it was
    created. *)
Definition issue43 : IssueP :=
  Issue.mk (Some 43) (Some "a fix") None None None [] None None
    (Some (mkLinks None)) (Some 1500000000000000000)
    (Some (1500000000000000000 + 36 * Hour)) None None.

(** ** [strconv.Atoi]

    Transcribed from package strconv of the Go standard library
    ([Atoi], [ParseInt], [ParseUint] at base 10 and 64 bits). *)

Inductive NumError := ErrSyntax | ErrRange.

(** The value of a decimal digit, from [c - '0']. *)
Definition digitOf (c : ascii) : option Z :=
  let n := Z.of_N (N_of_ascii c) in
  if decide (48 ≤ n ≤ 57) then Some (n - 48) else None.

Definition maxUint64 : Z := 2 ^ 64 - 1.

(** The loop of [ParseUint]: [n] is the number read so far.  A byte that is
    no digit is a syntax error; an overflow returns at once, whatever
    follows. *)
Fixpoint parseUintLoop (s : string) (n : Z) : Z * option NumError :=
  match s with
  | EmptyString => (n, None)
  | String c s' =>
      match digitOf c with
      | None => (0, Some ErrSyntax)
      | Some d =>
          if decide (maxUint64 `div` 10 + 1 ≤ n) then (maxUint64, Some ErrRange)
          else
            let n10 := n * 10 in
            let n1 := (n10 + d) `mod` 2 ^ 64 in
            if decide (n1 < n10 ∨ maxUint64 < n1) then (maxUint64, Some ErrRange)
            else parseUintLoop s' n1
      end
  end.

Definition ParseUint (s : string) : Z * option NumError :=
  match s with
  | EmptyString => (0, Some ErrSyntax)
  | _ => parseUintLoop s 0
  end.

(** [int64(u)] for an unsigned [u], and negation on [int64]. *)
Definition toInt64 (z : Z) : Z := (z + 2 ^ 63) `mod` 2 ^ 64 - 2 ^ 63.

Definition ParseInt (s : string) : Z * option NumError :=
  match s with
  | EmptyString => (0, Some ErrSyntax)
  | String c s' =>
      let '(neg, digits) :=
        if decide (c = "+"%char) then (false, s')
        else if decide (c = "-"%char) then (true, s')
        else (false, s) in
      match ParseUint digits with
      | (_, Some ErrSyntax) => (0, Some ErrSyntax)
      | (un, _) =>
          let cutoff := 2 ^ 63 in
          if decide (neg = false ∧ cutoff ≤ un) then (cutoff - 1, Some ErrRange)
          else if decide (neg = true ∧ cutoff < un) then (- cutoff, Some ErrRange)
          else
            let n := toInt64 un in
            (if neg then toInt64 (- n) else n, None)
      end
  end.

(** The fast path of [Atoi]: at most 18 bytes, so that [n] stays below
    [10 ^ 18] and the arithmetic on [int] cannot wrap. *)
Fixpoint atoiLoop (s : string) (n : Z) : option Z :=
  match s with
  | EmptyString => Some n
  | String c s' =>
      match digitOf c with
      | None => None
      | Some d => atoiLoop s' (n * 10 + d)
      end
  end.

Definition Atoi (s : string) : Z * option NumError :=
  let sLen := String.length s in
  if decide (0 < sLen ∧ sLen < 19)%nat then
    match s with
    | EmptyString => (0, Some ErrSyntax)
    | String c s' =>
        let signed := bool_decide (c = "-"%char ∨ c = "+"%char) in
        let digits := if signed then s' else s in
        if signed && bool_decide (String.length digits < 1)%nat
        then (0, Some ErrSyntax)
        else match atoiLoop digits 0 with
             | None => (0, Some ErrSyntax)
             | Some n => (if decide (c = "-"%char) then - n else n, None)
             end
    end
  else ParseInt s.

(** A purely numeric decimal name of a positive integer: some digits, not
    all of them 0. *)
Fixpoint allDigits (s : string) : bool :=
  match s with
  | EmptyString => true
  | String c s' => bool_decide (is_Some (digitOf c)) && allDigits s'
  end.

Fixpoint allZeros (s : string) : bool :=
  match s with
  | EmptyString => true
  | String c s' => bool_decide (c = "0"%char) && allZeros s'
  end.

Definition positiveDecimal (s : string) : bool :=
  bool_decide (s ≠ EmptyString) && allDigits s && negb (allZeros s).

#[global] Instance result_ret : MRet result := λ A a, Ok a.
#[global] Instance result_bind : MBind result := λ A B f m,
  match m with
  | Ok a => f a
  | Fatal => Fatal
  | Panic => Panic
  end.

(** A panic of [internIssue] inside a larger computation. *)
Definition orPanic {A} (o : option A) : result A :=
  match o with
  | Some a => Ok a
  | None => Panic
  end.

(** ** JSON documents and the cache directory *)

(** In a JSON document a reference is the referred object itself, or null. *)
Abbreviation TimelineJ := (Timeline.t (option User.t) (option Milestone.t)).
Abbreviation CommitJ := (RepositoryCommit.t (option User.t)).
Abbreviation IssueJ :=
  (Issue.t (option User.t) (option Milestone.t) (option Repository.t)).

Definition Timeline_map {U M U' M'} (fu : U → U') (fm : M → M')
    (t : Timeline.t U M) : Timeline.t U' M' :=
  Timeline.mk (Timeline.Event t) (fu (Timeline.Actor t))
    (fu (Timeline.Assignee t)) (fm (Timeline.Milestone t)).

Definition Commit_map {U U'} (fu : U → U')
    (c : RepositoryCommit.t U) : RepositoryCommit.t U' :=
  RepositoryCommit.mk (RepositoryCommit.SHA c) (fu (RepositoryCommit.Author c))
    (fu (RepositoryCommit.Committer c)).

Definition Issue_map {U M R U' M' R'} (fu : U → U') (fm : M → M') (fr : R → R')
    (i : Issue.t U M R) : Issue.t U' M' R' :=
  Issue.mk (Issue.Number i) (Issue.Title i) (fu (Issue.User i))
    (fu (Issue.Assignee i)) (fu (Issue.ClosedBy i)) (fu <$> Issue.Assignees i)
    (fm (Issue.Milestone i)) (fr (Issue.Repository i))
    (Issue.PullRequestLinks i) (Issue.CreatedAt i) (Issue.ClosedAt i)
    (fmap (M := list) (fmap (M := option) (Timeline_map fu fm)) <$> Issue.Timeline i)
    (fmap (M := list) (fmap (M := option) (Commit_map fu)) <$> Issue.Commits i).

(** What a pointer refers to. *)
Definition userAt (h : Heap) (r : ptr) : option User.t :=
  l ← r; userObjs h !! l.
Definition milestoneAt (h : Heap) (r : ptr) : option Milestone.t :=
  l ← r; milestoneObjs h !! l.
Definition repoAt (h : Heap) (r : ptr) : option Repository.t :=
  l ← r; repoObjs h !! l.

(** [json.MarshalIndent] of an issue: the field values, with every pointer
    followed.  The text of the document is abstracted to the tree of values
    it denotes. *)
Definition marshalIssue (h : Heap) (i : IssueP) : IssueJ :=
  Issue_map (userAt h) (milestoneAt h) (repoAt h) i.

(** [json.Unmarshal] allocates a new object for each object of the
    document. *)
Definition newUser (h : Heap) (u : option User.t) : Heap * ptr :=
  match u with
  | None => (h, None)
  | Some o => (mkHeap (userObjs h ++ [o]) (milestoneObjs h) (repoObjs h),
               Some (length (userObjs h)))
  end.

Definition newMilestone (h : Heap) (m : option Milestone.t) : Heap * ptr :=
  match m with
  | None => (h, None)
  | Some o => (mkHeap (userObjs h) (milestoneObjs h ++ [o]) (repoObjs h),
               Some (length (milestoneObjs h)))
  end.

Definition newRepo (h : Heap) (r : option Repository.t) : Heap * ptr :=
  match r with
  | None => (h, None)
  | Some o => (mkHeap (userObjs h) (milestoneObjs h) (repoObjs h ++ [o]),
               Some (length (repoObjs h)))
  end.

(** A traversal of a list that threads the heap. *)
Fixpoint newList {A B} (f : Heap → A → Heap * B) (h : Heap) (l : list A)
  : Heap * list B :=
  match l with
  | [] => (h, [])
  | x :: l' =>
      let '(h1, y) := f h x in
      let '(h2, l2) := newList f h1 l' in
      (h2, y :: l2)
  end.

Definition newOption {A B} (f : Heap → A → Heap * B) (h : Heap) (o : option A)
  : Heap * option B :=
  match o with
  | None => (h, None)
  | Some x => let '(h1, y) := f h x in (h1, Some y)
  end.

Definition newTimeline (h : Heap) (t : TimelineJ) : Heap * TimelineP :=
  let '(h1, a) := newUser h (Timeline.Actor t) in
  let '(h2, b) := newUser h1 (Timeline.Assignee t) in
  let '(h3, m) := newMilestone h2 (Timeline.Milestone t) in
  (h3, Timeline.mk (Timeline.Event t) a b m).

Definition newCommit (h : Heap) (c : CommitJ) : Heap * CommitP :=
  let '(h1, a) := newUser h (RepositoryCommit.Author c) in
  let '(h2, b) := newUser h1 (RepositoryCommit.Committer c) in
  (h2, RepositoryCommit.mk (RepositoryCommit.SHA c) a b).

Definition unmarshalIssue (h : Heap) (v : IssueJ) : Heap * IssueP :=
  let '(h1, u) := newUser h (Issue.User v) in
  let '(h2, a) := newUser h1 (Issue.Assignee v) in
  let '(h3, c) := newUser h2 (Issue.ClosedBy v) in
  let '(h4, asg) := newList newUser h3 (Issue.Assignees v) in
  let '(h5, m) := newMilestone h4 (Issue.Milestone v) in
  let '(h6, r) := newRepo h5 (Issue.Repository v) in
  let '(h7, tl) := newOption (newList (newOption newTimeline)) h6 (Issue.Timeline v) in
  let '(h8, cm) := newOption (newList (newOption newCommit)) h7 (Issue.Commits v) in
  (h8, Issue.mk (Issue.Number v) (Issue.Title v) u a c asg m r
         (Issue.PullRequestLinks v) (Issue.CreatedAt v) (Issue.ClosedAt v) tl cm).

(** What a name of the cache directory holds: a subdirectory, bytes that
    [json.Unmarshal] rejects, the document written by [Project.save], or the
    document written by [Issue.save]. *)
Inductive Content :=
  | Dir
  | Garbage
  | MetaDoc (Owner Repo : string) (RefreshedAt : Time)
  | IssueDoc (v : IssueJ).

(** The cache directory [*cache], by file name. *)
Abbreviation Disk := (gmap string Content).

(** [loadJSON(filepath.Join(dir, name), p)] for [p *Project]: a missing
    file is no error; a document of an issue has no key that names a field
    of [Project] and leaves it as it is. *)
Definition loadJSON_Project (d : Disk) (name : string) (p : Project.t)
  : result Project.t :=
  match d !! name with
  | None => Ok p
  | Some Dir => Fatal
  | Some Garbage => Fatal
  | Some (MetaDoc o r t) =>
      Ok (Project.mk o r t (Project.issues p) (Project.users p)
            (Project.milestones p) (Project.repos p))
  | Some (IssueDoc _) => Ok p
  end.

(** [&Issue{}] *)
Definition emptyIssue : IssueP :=
  Issue.mk None None None None None [] None None None None None None None.

(** [i := &Issue{}; loadJSON(filepath.Join(dir, name), i)]: the heap
    after the allocations, and [*i]. *)
Definition loadJSON_Issue (h : Heap) (d : Disk) (name : string)
  : result (Heap * IssueP) :=
  match d !! name with
  | None => Ok (h, emptyIssue)
  | Some Dir => Fatal
  | Some Garbage => Fatal
  | Some (MetaDoc _ _ _) => Ok (h, emptyIssue)
  | Some (IssueDoc v) => Ok (unmarshalIssue h v)
  end.

(** [ioutil.WriteFile]: it fails on the name of a directory. *)
Definition WriteFile (d : Disk) (name : string) (c : Content) : result Disk :=
  match d !! name with
  | Some Dir => Fatal
  | _ => Ok (<[name := c]> d)
  end.

(** [ioutil.ReadDir]: the names of the directory, sorted. *)
Definition nameLe (a b : string) : Prop := Is_true (String.leb a b).

Definition ReadDir (d : Disk) : list string :=
  merge_sort nameLe (map_to_list d).*1.

(** ** [load] *)

(** The body of the loop of [load] past the test of [n]: read the file,
    intern the issue, store it under the number it carries. *)
Definition ingest (h : Heap) (d : Disk) (p : Project.t) (name : string)
  : result (Heap * Project.t) :=
  '(h1, i) ← loadJSON_Issue h d name;
  '(p1, i1) ← orPanic (internIssue h1 p i);
  match Issue.Number i1 with
  | None => Panic
  | Some k => Ok (h1, Project.with_issues p1 (<[k := i1]> (Project.issues p1)))
  end.

Fixpoint loadFiles (h : Heap) (d : Disk) (p : Project.t) (files : list string)
  : result (Heap * Project.t) :=
  match files with
  | [] => Ok (h, p)
  | f :: rest =>
      let n := (Atoi f).1 in
      if decide (n = 0) then loadFiles h d p rest
      else '(h1, p1) ← ingest h d p f; loadFiles h1 d p1 rest
  end.

Definition load (h : Heap) (d : Disk) (p : Project.t) : result (Heap * Project.t) :=
  p1 ← loadJSON_Project d "meta" p;
  let files := ReadDir d in
  if decide (0 < length files)%nat then loadFiles h d p1 files
  else Ok (h, p1).

(** ** Saving *)

(** [byte('0' + d)] *)
Definition digitChar (d : Z) : ascii := ascii_of_N (Z.to_N (48 + d)).

(** The digit loop of [fmt] for [%d]: digits are produced from the last one,
    [for u >= 10 { ... u = u / 10 }], then the leading one.  A 64-bit number
    has at most 20 digits, which bounds the loop. *)
Fixpoint fmtUint (fuel : nat) (u : Z) (buf : string) : string :=
  match fuel with
  | O => buf
  | S fuel' =>
      if decide (10 ≤ u)
      then fmtUint fuel' (u `div` 10) (String (digitChar (u `mod` 10)) buf)
      else String (digitChar u) buf
  end.

(** [fmt.Sprintf("%d", n)] *)
Definition Sprintf_d (n : Z) : string :=
  if decide (n < 0) then String "-" (fmtUint 20 (- n) EmptyString)
  else fmtUint 20 n EmptyString.

(** [saveJSON(path, v)]: marshalling these records cannot fail, writing
    can. *)
Definition saveJSON (d : Disk) (name : string) (c : Content) : result Disk :=
  WriteFile d name c.

(** [func (i *Issue) save()]: the file is named after [*i.Number]. *)
Definition Issue_save (h : Heap) (d : Disk) (i : IssueP) : result Disk :=
  match Issue.Number i with
  | None => Panic
  | Some n => saveJSON d (Sprintf_d n) (IssueDoc (marshalIssue h i))
  end.

(** [func (p *Project) save()]: the exported fields only. *)
Definition Project_save (d : Disk) (p : Project.t) : result Disk :=
  saveJSON d "meta"
    (MetaDoc (Project.Owner p) (Project.Repo p) (Project.RefreshedAt p)).

(** ** [refresh] *)

(** What a call of the GitHub client returns: an error, or a page of items
    with [resp.NextPage]. *)
Inductive Reply (A : Type) : Type :=
  | Failed
  | Page (items : list A) (NextPage : Z).
Arguments Failed {A}.
Arguments Page {A}.

(** What the program does to the world, in order.  [Visit] marks the start
    of an iteration of the backfill loop and stands for no action. *)
Inductive Event :=
  | Now (t : Time)
  | ListByRepo (owner repo : string) (state direction : string) (since : Time)
      (page perPage : Z)
  | Sleep (d : Duration)
  | ListCommits (owner repo : string) (num page perPage : Z)
  | ListIssueTimeline (owner repo : string) (num page perPage : Z)
  | Written (name : string) (c : Content)
  | Visit (num : Z).

(** How a run ends: [refresh] returns, the process exits through
    [log.Fatal], it panics, or it is still waiting for a reply when the
    recorded replies are used up. *)
Inductive Ending := Returned | Exited | Panicked | Blocked.

#[global] Instance Ending_eq_dec : EqDecision Ending.
Proof. solve_decision. Defined.

(** The store, the cache directory and the events so far. *)
Record State := mkState {
  proj : Project.t;
  disk : Disk;
  trace : list Event }.

Definition emit (st : State) (e : Event) : State :=
  mkState (proj st) (disk st) (trace st ++ [e]).
Definition setProj (st : State) (p : Project.t) : State :=
  mkState p (disk st) (trace st).

Definition perPage : Z := 100.

(** The body of [for _, issue := range issues] of the listing phase: the
    record held under [*issue.Number] takes the listed fields and loses its
    timeline and commits.  [None] is the panic on a nil [issue] or a nil
    [Number]; the [Printf] before the loop reads the [Number] of the first
    and of the last issue and panics in the same cases. *)
Fixpoint storeIssues (p : Project.t) (issues : list (option IssueP))
  : option Project.t :=
  match issues with
  | [] => Some p
  | None :: _ => None
  | Some issue :: rest =>
      match Issue.Number issue with
      | None => None
      | Some n =>
          let i := Issue.mk (Issue.Number issue) (Issue.Title issue)
                     (Issue.User issue) (Issue.Assignee issue)
                     (Issue.ClosedBy issue) (Issue.Assignees issue)
                     (Issue.Milestone issue) (Issue.Repository issue)
                     (Issue.PullRequestLinks issue) (Issue.CreatedAt issue)
                     (Issue.ClosedAt issue) None None in
          storeIssues (Project.with_issues p (<[n := i]> (Project.issues p))) rest
      end
  end.

(** Phase A, [for page := 1; ; { ... }], against the replies [feed] of
    [Issues.ListByRepo].  An error sleeps and goes round again with [page]
    as it is. *)
Fixpoint listIssues (feed : list (Reply (option IssueP))) (st : State) (page : Z)
  : Ending * State * list (Reply (option IssueP)) :=
  let p := proj st in
  let st1 := emit st (ListByRepo (Project.Owner p) (Project.Repo p) "all" "asc"
                        (Project.RefreshedAt p) page perPage) in
  match feed with
  | [] => (Blocked, st1, [])
  | Failed :: feed' => listIssues feed' (emit st1 (Sleep (5 * Second))) page
  | Page issues NextPage :: feed' =>
      match storeIssues p issues with
      | None => (Panicked, st1, feed')
      | Some p' =>
          if decide (NextPage < page) then (Returned, setProj st1 p', feed')
          else listIssues feed' (setProj st1 p') NextPage
      end
  end.

(** The commit loop of phase B for issue [num]: [acc] is [i.Commits]. *)
Fixpoint listCommits (feed : list (Reply (option CommitP))) (owner repo : string)
    (num page : Z) (acc : slice (option CommitP)) (tr : list Event)
  : Ending * slice (option CommitP) * list Event * list (Reply (option CommitP)) :=
  let tr1 := tr ++ [ListCommits owner repo num page perPage] in
  match feed with
  | [] => (Blocked, acc, tr1, [])
  | Failed :: feed' => (Exited, acc, tr1, feed')
  | Page commits NextPage :: feed' =>
      let acc' := append acc commits in
      if decide (NextPage < page) then (Returned, acc', tr1, feed')
      else listCommits feed' owner repo num NextPage acc' tr1
  end.

(** The timeline loop of phase B for issue [num]: [acc] is [i.Timeline]. *)
Fixpoint listTimeline (feed : list (Reply (option TimelineP))) (owner repo : string)
    (num page : Z) (acc : slice (option TimelineP)) (tr : list Event)
  : Ending * slice (option TimelineP) * list Event * list (Reply (option TimelineP)) :=
  let tr1 := tr ++ [ListIssueTimeline owner repo num page perPage] in
  match feed with
  | [] => (Blocked, acc, tr1, [])
  | Failed :: feed' => (Exited, acc, tr1, feed')
  | Page timeline NextPage :: feed' =>
      let acc' := append acc timeline in
      if decide (NextPage < page) then (Returned, acc', tr1, feed')
      else listTimeline feed' owner repo num NextPage acc' tr1
  end.

Definition withCommits (i : IssueP) (cm : slice (option CommitP)) : IssueP :=
  Issue.mk (Issue.Number i) (Issue.Title i) (Issue.User i) (Issue.Assignee i)
    (Issue.ClosedBy i) (Issue.Assignees i) (Issue.Milestone i)
    (Issue.Repository i) (Issue.PullRequestLinks i) (Issue.CreatedAt i)
    (Issue.ClosedAt i) (Issue.Timeline i) cm.

Definition withTimeline (i : IssueP) (tl : slice (option TimelineP)) : IssueP :=
  Issue.mk (Issue.Number i) (Issue.Title i) (Issue.User i) (Issue.Assignee i)
    (Issue.ClosedBy i) (Issue.Assignees i) (Issue.Milestone i)
    (Issue.Repository i) (Issue.PullRequestLinks i) (Issue.CreatedAt i)
    (Issue.ClosedAt i) tl (Issue.Commits i).

Definition setIssue (st : State) (num : Z) (i : IssueP) : State :=
  setProj st (Project.with_issues (proj st) (<[num := i]> (Project.issues (proj st)))).

(** The replies of the two endpoints of phase B. *)
Record Feeds := mkFeeds {
  commitsFeed : list (Reply (option CommitP));
  timelineFeed : list (Reply (option TimelineP)) }.

(** [if changed { p.internIssue(i); i.save() }] *)
Definition internAndSave (h : Heap) (st : State) (num : Z) (i : IssueP)
  : Ending * State :=
  match internIssue h (proj st) i with
  | None => (Panicked, st)
  | Some (p1, i1) =>
      let st1 := setIssue (setProj st p1) num i1 in
      match Issue.Number i1 with
      | None => (Panicked, st1)
      | Some n =>
          match saveJSON (disk st1) (Sprintf_d n) (IssueDoc (marshalIssue h i1)) with
          | Ok d' =>
              (Returned,
               mkState (proj st1) d'
                 (trace st1 ++ [Written (Sprintf_d n) (IssueDoc (marshalIssue h i1))]))
          | Fatal => (Exited, st1)
          | Panic => (Panicked, st1)
          end
      end
  end.

(** One iteration of the backfill loop, for issue [num] held as [i]. *)
Definition backfill (h : Heap) (fs : Feeds) (st : State) (num : Z) (i : IssueP)
  : Ending * State * Feeds :=
  let p := proj st in
  let st0 := emit st (Visit num) in
  let '(e1, i1, changed1, st1, cf) :=
    if decide (is_Some (Issue.PullRequestLinks i) ∧ Issue.Commits i = None) then
      let '(e, cm, tr, cf) :=
        listCommits (commitsFeed fs) (Project.Owner p) (Project.Repo p) num 1
          (Issue.Commits i) (trace st0) in
      let i' := withCommits i cm in
      (e, i', true, setIssue (mkState (proj st0) (disk st0) tr) num i', cf)
    else (Returned, i, false, st0, commitsFeed fs) in
  match e1 with
  | Returned =>
      let '(e2, i2, changed2, st2, tf) :=
        if decide (Issue.Timeline i1 = None) then
          let '(e, tl, tr, tf) :=
            listTimeline (timelineFeed fs) (Project.Owner p) (Project.Repo p) num 1
              (Issue.Timeline i1) (trace st1) in
          let i' := withTimeline i1 tl in
          (e, i', true, setIssue (mkState (proj st1) (disk st1) tr) num i', tf)
        else (Returned, i1, changed1, st1, timelineFeed fs) in
      match e2 with
      | Returned =>
          if changed2 then
            let '(e3, st3) := internAndSave h st2 num i2 in (e3, st3, mkFeeds cf tf)
          else (Returned, st2, mkFeeds cf tf)
      | _ => (e2, st2, mkFeeds cf tf)
      end
  | _ => (e1, st1, mkFeeds cf (timelineFeed fs))
  end.

(** [sortedIssues]: the keys of [p.issues], sorted by [sort.Ints]. *)
Definition sortedIssues (p : Project.t) : list Z :=
  merge_sort Z.le (map_to_list (Project.issues p)).*1.

(** Phase B, [for j := len(sorted) - 1; j >= 0; j--], over the numbers in
    the order they are visited.  [p.issues[num]] of a number that is no key
    is nil, and reading its field panics. *)
Fixpoint backfillAll (h : Heap) (fs : Feeds) (st : State) (nums : list Z)
  : Ending * State * Feeds :=
  match nums with
  | [] => (Returned, st, fs)
  | num :: rest =>
      match Project.issues (proj st) !! num with
      | None => (Panicked, emit st (Visit num), fs)
      | Some i =>
          match backfill h fs st num i with
          | (Returned, st1, fs1) => backfillAll h fs1 st1 rest
          | other => other
          end
      end
  end.

(** Phase B: the numbers of [sortedIssues], from the last to the first. *)
Definition phaseB (h : Heap) (fs : Feeds) (st : State) : Ending * State * Feeds :=
  backfillAll h fs st (reverse (sortedIssues (proj st))).

(** The environment of one run of [refresh]: the reading of the clock and
    the replies of the three endpoints, in the order they are given. *)
Record Env := mkEnv {
  clock : Time;
  issuesFeed : list (Reply (option IssueP));
  feeds : Feeds }.

(** [func (p *Project) refresh()], once [makeClient] has returned.  The
    objects that the client returns are in the heap [h] from the start: the
    program never writes to a user, a milestone or a repository. *)
Definition refresh (h : Heap) (env : Env) (st : State) : Ending * State :=
  let start := clock env in
  let st0 := emit st (Now start) in
  match listIssues (issuesFeed env) st0 1 with
  | (Returned, st1, _) =>
      let p := Project.with_RefreshedAt (proj st1) start in
      match Project_save (disk st1) p with
      | Ok d' =>
          let st2 :=
            mkState p d'
              (trace st1 ++ [Written "meta" (MetaDoc (Project.Owner p)
                                               (Project.Repo p) start)]) in
          let '(e, st3, _) := phaseB h (feeds env) st2 in
          (e, st3)
      | Fatal => (Exited, setProj st1 p)
      | Panic => (Panicked, setProj st1 p)
      end
  | (e, st1, _) => (e, st1)
  end.

(** The request of Phase A for a page. *)
Definition listRequest (p : Project.t) (page : Z) : Event :=
  ListByRepo (Project.Owner p) (Project.Repo p) "all" "asc"
    (Project.RefreshedAt p) page perPage.

(** [n] failed attempts at a page: each is a request followed by a sleep of
    five seconds. *)
Definition retries (p : Project.t) (page : Z) (n : nat) : list Event :=
  concat (replicate n [listRequest p page; Sleep (5 * Second)]).

Definition addEvents (st : State) (evs : list Event) : State :=
  mkState (proj st) (disk st) (trace st ++ evs).

(** The numbers that a trace visits, in order. *)
Definition visits (tr : list Event) : list Z :=
  omap (λ e, match e with Visit n => Some n | _ => None end) tr.

Definition isListing (e : Event) : bool :=
  match e with
  | ListByRepo _ _ _ _ _ _ _ | Sleep _ => true
  | _ => false
  end.

Definition isTimelineRequest (num : Z) (e : Event) : bool :=
  match e with
  | ListIssueTimeline _ _ n _ _ => bool_decide (n = num)
  | _ => false
  end.

Definition isCommitRequest (num : Z) (e : Event) : bool :=
  match e with
  | ListCommits _ _ n _ _ => bool_decide (n = num)
  | _ => false
  end.

Definition isFetch (e : Event) : bool :=
  match e with
  | ListCommits _ _ _ _ _ | ListIssueTimeline _ _ _ _ _ => true
  | _ => false
  end.

Definition isWritten (e : Event) : bool :=
  match e with
  | Written _ _ => true
  | _ => false
  end.

(** The cache directory after the writes of a trace. *)
Definition written (d : Disk) (evs : list Event) : Disk :=
  foldl (λ d ev, match ev with Written name c => <[name := c]> d | _ => d end)
    d evs.

(** ** A sample run *)

(** Issue 42, already backfilled: it has a timeline. *)
Definition issue42b : IssueP :=
  withTimeline issue42 (Some [Some (Timeline.mk (Some "labeled") None None None)]).

Definition sampleState : State :=
  mkState
    (Project.mk "cockroachdb" "cockroach" 0
       (<[43 := issue43]> (<[42 := issue42b]> ∅)) ∅ ∅ ∅)
    ∅ [].

Definition sampleFeeds : Feeds :=
  mkFeeds
    [Page [Some (RepositoryCommit.mk (Some "abc") (Some 3%nat) (Some 1%nat))] 0]
    [Page [Some (Timeline.mk (Some "assigned") (Some 1%nat) (Some 2%nat)
                   (Some 1%nat))] 0].

(** The timeline endpoint fails. *)
Definition failingFeeds : Feeds :=
  mkFeeds
    [Page [Some (RepositoryCommit.mk (Some "abc") (Some 3%nat) (Some 1%nat))] 0]
    [Failed].

Definition sampleEnv : Env :=
  mkEnv 1700000000000000000 [Failed; Page [Some issue43] 0] sampleFeeds.

(** ** Sample cache directories *)

Definition issue5J : IssueJ :=
  Issue.mk (Some 5) (Some "five") (Some (User.mk (Some 5) (Some "bob"))) None None
    [] None None None (Some 1000) None None None.

(** A document without [number]. *)
Definition unnumberedJ : IssueJ :=
  Issue.mk None (Some "no number") None None None [] None None None None None
    None None.

Definition emptyHeap : Heap := mkHeap [] [] [].

(** One issue file whose name carries a sign. *)
Definition signedDir : Disk := <["+5" := IssueDoc issue5J]> ∅.

(** A file named 7 that holds issue 5, next to the file of issue 5. *)
Definition misnamedDir : Disk :=
  <["7" := IssueDoc issue5J]> (<["5" := IssueDoc issue5J]> ∅).

Definition unnumberedDir : Disk := <["7" := IssueDoc unnumberedJ]> ∅.

(** ** Persisting a whole store *)

Fixpoint saveAll (h : Heap) (d : Disk) (l : list IssueP) : result Disk :=
  match l with
  | [] => Ok d
  | i :: rest => d1 ← Issue_save h d i; saveAll h d1 rest
  end.

(** [Project.save], then [Issue.save] for each issue of the store. *)
Definition persist (h : Heap) (d : Disk) (p : Project.t) : result Disk :=
  d1 ← Project_save d p; saveAll h d1 (map_to_list (Project.issues p)).*2.

(** A heap grows by allocation: what exists stays where it is. *)
Definition heap_le (h h' : Heap) : Prop :=
  userObjs h `prefix_of` userObjs h'
  ∧ milestoneObjs h `prefix_of` milestoneObjs h'
  ∧ repoObjs h `prefix_of` repoObjs h'.

(** The value of a reference is settled: no allocation changes it. *)
Definition stable {V} (val : Heap → ptr → V) (h : Heap) (r : ptr) : Prop :=
  ∀ hx, heap_le h hx → val hx r = val h r.

(** The ID that a value carries. *)
Definition userID (u : option User.t) : Z :=
  match u with
  | Some o => default 0 (User.ID o)
  | None => 0
  end.
Definition milestoneID (m : option Milestone.t) : Z :=
  match m with
  | Some o => default 0 (Milestone.ID o)
  | None => 0
  end.
Definition repoID (r : option Repository.t) : Z :=
  match r with
  | Some o => default 0 (Repository.ID o)
  | None => 0
  end.

(** With [cv k] the one value of the entity of ID [k]: a reference that is
    settled and, when its ID is set, refers to that value. *)
Definition refReady {V} (val : Heap → ptr → V) (idOf : V → Z) (cv : Z → V)
    (h : Heap) (r : ptr) : Prop :=
  stable val h r ∧ (idOf (val h r) ≠ 0 → val h r = cv (idOf (val h r))).

(** A table whose instances are settled and carry the value of their ID. *)
Definition tableOK {V} (val : Heap → ptr → V) (idOf : V → Z) (cv : Z → V)
    (h : Heap) (m : gmap Z ptr) : Prop :=
  ∀ k e, m !! k = Some (Some e) →
    stable val h (Some e) ∧ val h (Some e) = cv k ∧ idOf (cv k) = k.

(** The value that a store gives to an ID. *)
Definition canonUser (h : Heap) (p : Project.t) (k : Z) : option User.t :=
  userAt h (mapGet (Project.users p) k).
Definition canonMilestone (h : Heap) (p : Project.t) (k : Z) : option Milestone.t :=
  milestoneAt h (mapGet (Project.milestones p) k).
Definition canonRepo (h : Heap) (p : Project.t) (k : Z) : option Repository.t :=
  repoAt h (mapGet (Project.repos p) k).

(** A pointer that stands for a value of a document, for good. *)
Definition userIs (h : Heap) (u : option User.t) (r : ptr) : Prop :=
  userAt h r = u ∧ stable userAt h r.
Definition milestoneIs (h : Heap) (m : option Milestone.t) (r : ptr) : Prop :=
  milestoneAt h r = m ∧ stable milestoneAt h r.
Definition repoIs (h : Heap) (x : option Repository.t) (r : ptr) : Prop :=
  repoAt h r = x ∧ stable repoAt h r.

Definition timelineIs (h : Heap) (v : option TimelineJ) (t : option TimelineP) : Prop :=
  Timeline_map (userAt h) (milestoneAt h) <$> t = v
  ∧ Forall (stable userAt h) (timelineUsers t)
  ∧ Forall (stable milestoneAt h) (timelineMilestones t).

Definition commitIs (h : Heap) (v : option CommitJ) (c : option CommitP) : Prop :=
  Commit_map (userAt h) <$> c = v
  ∧ Forall (stable userAt h) (commitUsers c).

(** An issue in memory that stands for a document, for good. *)
Definition issueIs (h : Heap) (v : IssueJ) (i : IssueP) : Prop :=
  marshalIssue h i = v
  ∧ Forall (stable userAt h) (userRefs i)
  ∧ Forall (stable milestoneAt h) (milestoneRefs i)
  ∧ Forall (stable repoAt h) (repoRefs i).

(** A store whose three tables are settled on the values [cvU], [cvM] and
    [cvR] of the IDs. *)
Definition storeOK (cvU : Z → option User.t) (cvM : Z → option Milestone.t)
    (cvR : Z → option Repository.t) (h : Heap) (p : Project.t) : Prop :=
  tableOK userAt userID cvU h (Project.users p)
  ∧ tableOK milestoneAt milestoneID cvM h (Project.milestones p)
  ∧ tableOK repoAt repoID cvR h (Project.repos p).

(** An issue whose references are settled on these values. *)
Definition issueReady (cvU : Z → option User.t) (cvM : Z → option Milestone.t)
    (cvR : Z → option Repository.t) (h : Heap) (i : IssueP) : Prop :=
  Forall (refReady userAt userID cvU h) (userRefs i)
  ∧ Forall (refReady milestoneAt milestoneID cvM h) (milestoneRefs i)
  ∧ Forall (refReady repoAt repoID cvR h) (repoRefs i).

(** A store as the program keeps it when it saves: each issue is held under
    its own number, a nonzero [int], and has been interned in the store. *)
Definition storeInterned (h : Heap) (p : Project.t) : Prop :=
  ∀ k i, Project.issues p !! k = Some i →
    Issue.Number i = Some k ∧ k ≠ 0 ∧ - 2 ^ 63 ≤ k < 2 ^ 63
    ∧ internIssue h p i = Some (p, i).

(** What [load] has built so far, against the store [p] that was saved from
    the heap [h]: tables settled on the values of [p], and issues that stand
    for the documents of the issues of [p]. *)
Definition loaded (h : Heap) (p : Project.t) (h' : Heap) (p' : Project.t) : Prop :=
  storeOK (canonUser h p) (canonMilestone h p) (canonRepo h p) h' p'
  ∧ ∀ k i', Project.issues p' !! k = Some i' →
      ∃ i, Project.issues p !! k = Some i ∧ issueIs h' (marshalIssue h i) i'.

(** A store with no issue and no entity: [makeProject] returns one. *)
Definition freshStore (p : Project.t) : Prop :=
  Project.issues p = ∅ ∧ Project.users p = ∅
  ∧ Project.milestones p = ∅ ∧ Project.repos p = ∅.

(* ==== PROPERTIES ==== *)

(** * Properties *)

(** ** One table *)

Section RefTable.
  Variable getID : ptr → Z.
  Hypothesis getID_nil : getID None = 0.

Lemma internRef_wf m r :
  map_wf getID m → map_wf getID (internRef getID m r).1.
Proof.
  intros Hwf. unfold internRef. case_decide as Hid; [|done].
  destruct (mapGet m (getID r)) as [e|] eqn:Hget; [done|]. simpl.
  intros k e Hk. destruct (decide (getID r = k)) as [<-|Hne].
  - rewrite lookup_insert_eq in Hk. by simplify_eq.
  - rewrite lookup_insert_ne in Hk by done. by apply Hwf.
Qed.

Lemma map_le_refl m : map_le m m.
Proof. by intros k e. Qed.

Lemma map_le_trans m1 m2 m3 : map_le m1 m2 → map_le m2 m3 → map_le m1 m3.
Proof. intros H1 H2 k e Hk. by apply H2, H1. Qed.

Lemma internRef_le m r : map_le m (internRef getID m r).1.
Proof.
  unfold internRef. case_decide as Hid; [|apply map_le_refl].
  destruct (mapGet m (getID r)) as [e|] eqn:Hget; [apply map_le_refl|]. simpl.
  intros k e Hk. destruct (decide (getID r = k)) as [<-|Hne].
  - unfold mapGet in Hget. by rewrite Hk in Hget.
  - by rewrite lookup_insert_ne.
Qed.

Lemma internRef_canon m r :
  map_wf getID m →
  canon getID (internRef getID m r).1 (internRef getID m r).2.
Proof.
  intros Hwf. unfold internRef, canon. case_decide as Hid; [|done].
  destruct (mapGet m (getID r)) as [e|] eqn:Hget; simpl.
  - intros _. unfold mapGet in Hget.
    destruct (m !! getID r) as [[e'|]|] eqn:Hm; simplify_eq/=.
    by rewrite (Hwf _ _ Hm).
  - intros _. by rewrite lookup_insert_eq.
Qed.

Lemma internRef_fix m r : canon getID m r → internRef getID m r = (m, r).
Proof.
  intros Hc. unfold internRef. case_decide as Hid; [|done].
  specialize (Hc Hid). unfold mapGet. rewrite Hc.
  destruct r as [e|]; [done|]. by rewrite getID_nil in Hid.
Qed.

Lemma canon_le m m' r : map_le m m' → canon getID m r → canon getID m' r.
Proof.
  intros Hle Hc Hid. specialize (Hc Hid).
  destruct r as [e|]; [by apply Hle|]. by rewrite getID_nil in Hid.
Qed.

End RefTable.

(** ** The three interners as steps on their tables *)

Lemma internUser_ref h p u :
  internUser h p u =
  (Project.with_users p (internRef (User_GetID h) (Project.users p) u).1,
   (internRef (User_GetID h) (Project.users p) u).2).
Proof.
  unfold internUser, internRef. case_decide; [|by destruct p].
  destruct (mapGet _ _); by destruct p.
Qed.

Lemma internMilestone_ref h p m :
  internMilestone h p m =
  (Project.with_milestones p
     (internRef (Milestone_GetID h) (Project.milestones p) m).1,
   (internRef (Milestone_GetID h) (Project.milestones p) m).2).
Proof.
  unfold internMilestone, internRef. case_decide; [|by destruct p].
  destruct (mapGet _ _); by destruct p.
Qed.

Lemma internRepo_ref h p r :
  internRepo h p r =
  (Project.with_repos p (internRef (Repository_GetID h) (Project.repos p) r).1,
   (internRef (Repository_GetID h) (Project.repos p) r).2).
Proof.
  unfold internRepo, internRef. case_decide; [|by destruct p].
  destruct (mapGet _ _); by destruct p.
Qed.

Lemma store_le_refl p : store_le p p.
Proof. split; auto using map_le_refl. Qed.

Lemma store_le_trans p1 p2 p3 : store_le p1 p2 → store_le p2 p3 → store_le p1 p3.
Proof.
  intros [] []. split; eauto using map_le_trans; congruence.
Qed.

Lemma userCanon_le h p p' u : store_le p p' → userCanon h p u → userCanon h p' u.
Proof. intros []. by apply canon_le. Qed.

Lemma milestoneCanon_le h p p' m :
  store_le p p' → milestoneCanon h p m → milestoneCanon h p' m.
Proof. intros []. by apply canon_le. Qed.

Lemma repoCanon_le h p p' r : store_le p p' → repoCanon h p r → repoCanon h p' r.
Proof. intros []. by apply canon_le. Qed.

Lemma internUser_spec h p u p' u' :
  store_wf h p → internUser h p u = (p', u') →
  store_wf h p' ∧ store_le p p' ∧ userCanon h p' u'.
Proof.
  intros [Hu Hm Hr]. rewrite internUser_ref. intros [= <- <-].
  split_and!.
  - split; simpl; [by apply internRef_wf|done..].
  - split; simpl; auto using map_le_refl, internRef_le.
  - by apply internRef_canon.
Qed.

Lemma internMilestone_spec h p m p' m' :
  store_wf h p → internMilestone h p m = (p', m') →
  store_wf h p' ∧ store_le p p' ∧ milestoneCanon h p' m'.
Proof.
  intros [Hu Hm Hr]. rewrite internMilestone_ref. intros [= <- <-].
  split_and!.
  - split; simpl; [done|by apply internRef_wf|done].
  - split; simpl; auto using map_le_refl, internRef_le.
  - by apply internRef_canon.
Qed.

Lemma internRepo_spec h p r p' r' :
  store_wf h p → internRepo h p r = (p', r') →
  store_wf h p' ∧ store_le p p' ∧ repoCanon h p' r'.
Proof.
  intros [Hu Hm Hr]. rewrite internRepo_ref. intros [= <- <-].
  split_and!.
  - split; simpl; [done|done|by apply internRef_wf].
  - split; simpl; auto using map_le_refl, internRef_le.
  - by apply internRef_canon.
Qed.

Lemma internUser_fix h p u : userCanon h p u → internUser h p u = (p, u).
Proof.
  intros Hc. rewrite internUser_ref, internRef_fix by done. by destruct p.
Qed.

Lemma internMilestone_fix h p m :
  milestoneCanon h p m → internMilestone h p m = (p, m).
Proof.
  intros Hc. rewrite internMilestone_ref, internRef_fix by done. by destruct p.
Qed.

Lemma internRepo_fix h p r : repoCanon h p r → internRepo h p r = (p, r).
Proof.
  intros Hc. rewrite internRepo_ref, internRef_fix by done. by destruct p.
Qed.

(** ** The loops of [internIssue] *)

Lemma internUsers_spec h us : ∀ p p' us',
  store_wf h p → internUsers h p us = (p', us') →
  store_wf h p' ∧ store_le p p' ∧ Forall (userCanon h p') us'.
Proof.
  induction us as [|u us IH]; intros p p' us' Hwf; simpl.
  - intros [= <- <-]. auto using store_le_refl.
  - destruct (internUser h p u) as [p1 u1] eqn:H1.
    destruct (internUsers h p1 us) as [p2 us2] eqn:H2. intros [= <- <-].
    apply internUser_spec in H1 as (Hwf1 & Hle1 & Hc1); [|done].
    apply IH in H2 as (Hwf2 & Hle2 & Hc2); [|done].
    split_and!; eauto using store_le_trans, userCanon_le.
Qed.

Lemma internUsers_fix h us : ∀ p,
  Forall (userCanon h p) us → internUsers h p us = (p, us).
Proof.
  induction us as [|u us IH]; intros p Hc; [done|].
  inversion_clear Hc. simpl. by rewrite internUser_fix, IH.
Qed.

Lemma internTimeline_spec h ts : ∀ p p' ts',
  store_wf h p → internTimeline h p ts = Some (p', ts') →
  store_wf h p' ∧ store_le p p'
  ∧ Forall (userCanon h p') (concat (timelineUsers <$> ts'))
  ∧ Forall (milestoneCanon h p') (concat (timelineMilestones <$> ts'))
  ∧ Forall is_Some ts'.
Proof.
  induction ts as [|[t|] ts IH]; intros p p' ts' Hwf; simpl; [|  |done].
  - intros [= <- <-]. split_and!; auto using store_le_refl.
  - destruct (internUser h p _) as [p1 a] eqn:H1.
    destruct (internUser h p1 _) as [p2 b] eqn:H2.
    destruct (internMilestone h p2 _) as [p3 m] eqn:H3.
    destruct (internTimeline h p3 ts) as [[p4 ts4]|] eqn:H4; [|done].
    simpl. intros [= <- <-].
    apply internUser_spec in H1 as (Hwf1 & Hle1 & Hc1); [|done].
    apply internUser_spec in H2 as (Hwf2 & Hle2 & Hc2); [|done].
    apply internMilestone_spec in H3 as (Hwf3 & Hle3 & Hc3); [|done].
    apply IH in H4 as (Hwf4 & Hle4 & Hc4 & Hm4 & Hn4); [|done].
    split_and!; [done|eauto using store_le_trans|..].
    + simpl. repeat constructor; eauto 6 using store_le_trans, userCanon_le.
    + simpl. repeat constructor; eauto using milestoneCanon_le.
    + constructor; eauto.
Qed.

Lemma internTimeline_fix h ts : ∀ p,
  Forall is_Some ts →
  Forall (userCanon h p) (concat (timelineUsers <$> ts)) →
  Forall (milestoneCanon h p) (concat (timelineMilestones <$> ts)) →
  internTimeline h p ts = Some (p, ts).
Proof.
  induction ts as [|[t|] ts IH]; intros p Hn Hu Hm;
    [done| |by inversion_clear Hn as [|?? []]].
  apply Forall_cons in Hn as [_ Hn]. simpl in *.
  inversion_clear Hu as [|?? Ha Hu1]. inversion_clear Hu1 as [|?? Hb Hu2].
  inversion_clear Hm as [|?? Hc Hm1].
  rewrite !internUser_fix, internMilestone_fix, IH by done.
  simpl. by destruct t.
Qed.

Lemma internCommits_spec h cs : ∀ p p' cs',
  store_wf h p → internCommits h p cs = Some (p', cs') →
  store_wf h p' ∧ store_le p p'
  ∧ Forall (userCanon h p') (concat (commitUsers <$> cs'))
  ∧ Forall is_Some cs'.
Proof.
  induction cs as [|[c|] cs IH]; intros p p' cs' Hwf; simpl; [|  |done].
  - intros [= <- <-]. split_and!; auto using store_le_refl.
  - destruct (internUser h p _) as [p1 a] eqn:H1.
    destruct (internUser h p1 _) as [p2 b] eqn:H2.
    destruct (internCommits h p2 cs) as [[p3 cs3]|] eqn:H3; [|done].
    simpl. intros [= <- <-].
    apply internUser_spec in H1 as (Hwf1 & Hle1 & Hc1); [|done].
    apply internUser_spec in H2 as (Hwf2 & Hle2 & Hc2); [|done].
    apply IH in H3 as (Hwf3 & Hle3 & Hc3 & Hn3); [|done].
    split_and!; [done|eauto using store_le_trans|..].
    + simpl. repeat constructor; eauto 6 using store_le_trans, userCanon_le.
    + constructor; eauto.
Qed.

Lemma internCommits_fix h cs : ∀ p,
  Forall is_Some cs →
  Forall (userCanon h p) (concat (commitUsers <$> cs)) →
  internCommits h p cs = Some (p, cs).
Proof.
  induction cs as [|[c|] cs IH]; intros p Hn Hu;
    [done| |by inversion_clear Hn as [|?? []]].
  apply Forall_cons in Hn as [_ Hn]. simpl in *.
  inversion_clear Hu as [|?? Ha Hu1]. inversion_clear Hu1 as [|?? Hb Hu2].
  rewrite !internUser_fix, IH by done.
  simpl. by destruct c.
Qed.

(** ** [internIssue] *)

Lemma internIssue_spec h p i p' i' :
  store_wf h p → internIssue h p i = Some (p', i') →
  store_wf h p' ∧ store_le p p' ∧ issueCanon h p' i' ∧ noNil i'.
Proof.
  intros Hwf. unfold internIssue.
  destruct (internUser h p _) as [p1 u] eqn:H1.
  destruct (internUser h p1 _) as [p2 a] eqn:H2.
  destruct (internUser h p2 _) as [p3 c] eqn:H3.
  destruct (internUsers h p3 _) as [p4 asg] eqn:H4.
  destruct (internMilestone h p4 _) as [p5 m] eqn:H5.
  destruct (internRepo h p5 _) as [p6 r] eqn:H6.
  apply internUser_spec in H1 as (Hwf1 & Hle1 & Hc1); [|done].
  apply internUser_spec in H2 as (Hwf2 & Hle2 & Hc2); [|done].
  apply internUser_spec in H3 as (Hwf3 & Hle3 & Hc3); [|done].
  apply internUsers_spec in H4 as (Hwf4 & Hle4 & Hc4); [|done].
  apply internMilestone_spec in H5 as (Hwf5 & Hle5 & Hc5); [|done].
  apply internRepo_spec in H6 as (Hwf6 & Hle6 & Hc6); [|done].
  destruct (overSlice (internTimeline h) p6 _) as [[p7 tl]|] eqn:H7; [|done].
  assert (store_wf h p7 ∧ store_le p6 p7
       ∧ Forall (userCanon h p7) (concat (timelineUsers <$> sliceList tl))
       ∧ Forall (milestoneCanon h p7) (concat (timelineMilestones <$> sliceList tl))
       ∧ Forall is_Some (sliceList tl)) as (Hwf7 & Hle7 & Hu7 & Hm7 & Hn7).
  { unfold overSlice in H7. destruct (Issue.Timeline i) as [l|].
    - destruct (internTimeline h p6 l) as [[q l']|] eqn:Hl; simplify_eq/=.
      by apply internTimeline_spec in Hl.
    - simplify_eq/=. split_and!; auto using store_le_refl; constructor. }
  simpl.
  destruct (overSlice (internCommits h) p7 _) as [[p8 cm]|] eqn:H8; [|done].
  assert (store_wf h p8 ∧ store_le p7 p8
       ∧ Forall (userCanon h p8) (concat (commitUsers <$> sliceList cm))
       ∧ Forall is_Some (sliceList cm)) as (Hwf8 & Hle8 & Hu8 & Hn8).
  { unfold overSlice in H8. destruct (Issue.Commits i) as [l|].
    - destruct (internCommits h p7 l) as [[q l']|] eqn:Hl; simplify_eq/=.
      by apply internCommits_spec in Hl.
    - simplify_eq/=. split_and!; auto using store_le_refl; constructor. }
  simpl. intros [= <- <-].
  assert (store_le p1 p8) by eauto 10 using store_le_trans.
  assert (store_le p2 p8) by eauto 10 using store_le_trans.
  assert (store_le p3 p8) by eauto 10 using store_le_trans.
  assert (store_le p4 p8) by eauto 10 using store_le_trans.
  assert (store_le p5 p8) by eauto 10 using store_le_trans.
  assert (store_le p6 p8) by eauto 10 using store_le_trans.
  split_and!; [done|eauto using store_le_trans| |done].
  split_and!; unfold userRefs, milestoneRefs, repoRefs; simpl.
  - repeat apply Forall_cons_2; eauto using userCanon_le.
    repeat apply Forall_app_2; [|eapply Forall_impl; [exact Hu7|]|done];
      [eapply Forall_impl; [exact Hc4|]|]; eauto using userCanon_le.
  - apply Forall_cons_2; eauto using milestoneCanon_le.
    eapply Forall_impl; [exact Hm7|]. eauto using milestoneCanon_le.
  - repeat constructor. eauto using repoCanon_le.
Qed.

Lemma internIssue_fix h p i :
  issueCanon h p i → noNil i → internIssue h p i = Some (p, i).
Proof.
  intros (Hu & Hm & Hr) [Hnt Hnc]. unfold internIssue.
  unfold userRefs in Hu. unfold milestoneRefs in Hm. unfold repoRefs in Hr.
  simpl in Hu. rewrite !Forall_cons, !Forall_app in Hu.
  destruct Hu as (Hu1 & Hu2 & Hu3 & Hu4 & Hu5 & Hu6).
  apply Forall_cons in Hm as [Hm1 Hm2]. apply Forall_cons in Hr as [Hr1 _].
  rewrite !internUser_fix, internUsers_fix, internMilestone_fix,
    internRepo_fix by done.
  destruct i as [n ti u a c asg m r pl ca cl tl cm]; simpl in *.
  assert (overSlice (internTimeline h) p tl = Some (p, tl)) as ->.
  { destruct tl as [l|]; [|done]. simpl. by rewrite internTimeline_fix. }
  simpl.
  assert (overSlice (internCommits h) p cm = Some (p, cm)) as ->.
  { destruct cm as [l|]; [|done]. simpl. by rewrite internCommits_fix. }
  done.
Qed.

Lemma internCases_internRef getID m r :
  internCases getID m r (internRef getID m r).1 (internRef getID m r).2.
Proof.
  unfold internCases, internRef. case_decide as Hid.
  - destruct (mapGet m (getID r)) as [e|] eqn:He; simpl.
    + right; left. eauto.
    + right; right. auto.
  - left. split; [|done]. by destruct (decide (getID r = 0)).
Qed.

Lemma canon_sameInstance getID m rs1 rs2 :
  Forall (canon getID m) rs1 → Forall (canon getID m) rs2 →
  sameInstance getID rs1 rs2.
Proof.
  rewrite !Forall_forall. intros H1 H2 r1 r2 Hr1 Hr2 Hid Heq.
  pose proof (H1 _ Hr1 Hid) as E1.
  assert (getID r2 ≠ 0) as Hid2 by congruence.
  pose proof (H2 _ Hr2 Hid2) as E2. rewrite <-Heq in E2. congruence.
Qed.

Lemma issueCanon_le h p p' i : store_le p p' → issueCanon h p i → issueCanon h p' i.
Proof.
  intros Hle (Hu & Hm & Hr). split_and!; (eapply Forall_impl; [eassumption|]);
    eauto using userCanon_le, milestoneCanon_le, repoCanon_le.
Qed.

Lemma store_wf_empty h o r t iss : store_wf h (Project.mk o r t iss ∅ ∅ ∅).
Proof. split; intros k e; simpl; by rewrite lookup_empty. Qed.

Lemma makeProject_wf h s p : makeProject s = Some p → store_wf h p.
Proof.
  unfold makeProject. intros Hs. repeat case_match; simplify_eq.
  apply store_wf_empty.
Qed.

(** ** The interning invariant *)

(** C1 (interning invariant).  Each of the three interners does one of
    three things to its table and to the reference it is given: nothing when
    the ID is unset, a rewrite of the reference to the instance the table
    already holds for the ID, or the registration of the given instance; it
    touches no other field of the project.  Hence, from a store that holds
    every instance under its own ID, [internIssue] leaves such a store in
    which every reference of the issue with a set ID is the pointer the
    store holds for that ID, and this survives the interning of any further
    issue: all interned references with the same set ID, within an issue
    and across issues, are one pointer. *)
Theorem interning_invariant (h : Heap) (p : Project.t) :
  (∀ u, internCases (User_GetID h) (Project.users p) u
          (Project.users (internUser h p u).1) (internUser h p u).2
        ∧ internUser h p u
          = (Project.with_users p (Project.users (internUser h p u).1),
             (internUser h p u).2))
  ∧ (∀ m, internCases (Milestone_GetID h) (Project.milestones p) m
          (Project.milestones (internMilestone h p m).1) (internMilestone h p m).2
        ∧ internMilestone h p m
          = (Project.with_milestones p
               (Project.milestones (internMilestone h p m).1),
             (internMilestone h p m).2))
  ∧ (∀ r, internCases (Repository_GetID h) (Project.repos p) r
          (Project.repos (internRepo h p r).1) (internRepo h p r).2
        ∧ internRepo h p r
          = (Project.with_repos p (Project.repos (internRepo h p r).1),
             (internRepo h p r).2))
  ∧ (store_wf h p → ∀ i p1 i1, internIssue h p i = Some (p1, i1) →
       store_wf h p1 ∧ issueCanon h p1 i1
       ∧ sameInstance (User_GetID h) (userRefs i1) (userRefs i1)
       ∧ sameInstance (Milestone_GetID h) (milestoneRefs i1) (milestoneRefs i1)
       ∧ ∀ j p2 j1, internIssue h p1 j = Some (p2, j1) →
           issueCanon h p2 i1 ∧ issueCanon h p2 j1
           ∧ sameInstance (User_GetID h) (userRefs i1) (userRefs j1)
           ∧ sameInstance (Milestone_GetID h) (milestoneRefs i1) (milestoneRefs j1)
           ∧ sameInstance (Repository_GetID h) (repoRefs i1) (repoRefs j1)).
Proof.
  split_and!.
  - intros u. rewrite internUser_ref. simpl. split; [|done].
    apply internCases_internRef.
  - intros m. rewrite internMilestone_ref. simpl. split; [|done].
    apply internCases_internRef.
  - intros r. rewrite internRepo_ref. simpl. split; [|done].
    apply internCases_internRef.
  - intros Hwf i p1 i1 Hi.
    apply internIssue_spec in Hi as (Hwf1 & Hle1 & Hc1 & Hn1); [|done].
    pose proof Hc1 as (Hu1 & Hm1 & Hr1).
    split_and!; [done|done|by eapply canon_sameInstance..|].
    intros j p2 j1 Hj.
    apply internIssue_spec in Hj as (Hwf2 & Hle2 & Hc2 & Hn2); [|done].
    pose proof (issueCanon_le _ _ _ _ Hle2 Hc1) as Hc12.
    destruct Hc12 as (Hu12 & Hm12 & Hr12). pose proof Hc2 as (Hu2 & Hm2 & Hr2).
    split_and!; [done|done|by eapply canon_sameInstance..].
Qed.

Lemma interning_invariant_witness :
  store_wf sampleHeap sampleProject
  ∧ internIssue sampleHeap sampleProject sampleIssue
    = Some (sampleStore, sampleInterned)
  ∧ issueCanon sampleHeap sampleStore sampleInterned.
Proof.
  assert (store_wf sampleHeap sampleProject) as Hwf by apply store_wf_empty.
  assert (internIssue sampleHeap sampleProject sampleIssue
          = Some (sampleStore, sampleInterned)) as Hi by (vm_compute; reflexivity).
  split_and!; [done|done|].
  destruct (interning_invariant sampleHeap sampleProject) as (_ & _ & _ & H).
  exact (proj1 (proj2 (H Hwf _ _ _ Hi))).
Defined.

(** C2 (interning idempotence).  From a store that holds every instance
    under its own ID, once [internIssue] has run on an issue, running it
    again on the result returns the same store and the same issue: the
    three maps and every reference of the issue are unchanged; and the
    store holds, for each set ID among the issue's references, that one
    reference. *)
Theorem internIssue_idempotent (h : Heap) (p p1 : Project.t) (i i1 : IssueP) :
  store_wf h p →
  internIssue h p i = Some (p1, i1) →
  internIssue h p1 i1 = Some (p1, i1)
  ∧ (∀ r, r ∈ userRefs i1 → User_GetID h r ≠ 0 →
          Project.users p1 !! User_GetID h r = Some r)
  ∧ (∀ r, r ∈ milestoneRefs i1 → Milestone_GetID h r ≠ 0 →
          Project.milestones p1 !! Milestone_GetID h r = Some r)
  ∧ (∀ r, r ∈ repoRefs i1 → Repository_GetID h r ≠ 0 →
          Project.repos p1 !! Repository_GetID h r = Some r).
Proof.
  intros Hwf Hi.
  apply internIssue_spec in Hi as (Hwf1 & Hle1 & Hc1 & Hn1); [|done].
  split; [by apply internIssue_fix|].
  destruct Hc1 as (Hu & Hm & Hr). rewrite Forall_forall in Hu, Hm, Hr.
  split_and!; intros r Hin Hid; [by apply Hu|by apply Hm|by apply Hr].
Qed.

Lemma internIssue_idempotent_witness :
  internIssue sampleHeap sampleStore sampleInterned
  = Some (sampleStore, sampleInterned).
Proof.
  refine (proj1 (internIssue_idempotent sampleHeap sampleProject sampleStore
                   sampleIssue sampleInterned _ _)).
  - apply store_wf_empty.
  - vm_compute; reflexivity.
Defined.

(** ** The age of closed pull requests *)

Lemma Time_Sub_36h (T : Time) : Time_Sub (T + 36 * Hour) T = 36 * Hour.
Proof.
  unfold Time_Sub. replace (T + 36 * Hour - T) with (36 * Hour) by lia.
  by vm_compute.
Qed.

(** C9, as the spec has it, fails: the pull request closed 36 hours after
    its creation is recorded with an age of 1 day, not 2. *)
Lemma closed_age_rounds_up_counterexample :
  recordAge issue43 = Ok (Some 1)
  ∧ ¬ (∀ (i : IssueP) (T : Time),
         is_Some (Issue.PullRequestLinks i) →
         Issue.CreatedAt i = Some T →
         Issue.ClosedAt i = Some (T + 36 * Hour) →
         recordAge i = Ok (Some 2)).
Proof.
  split; [by vm_compute|].
  intros H.
  assert (recordAge issue43 = Ok (Some 2)) as E; [|by vm_compute in E].
  by apply (H issue43 1500000000000000000); [eexists|..].
Qed.

(** C9 (closed-PR age), amended.  An issue without pull-request link, or
    without [ClosedAt], hands no value to the histogram.  A pull request
    created at [T] and closed at [T + 36h] is recorded with an age of 1 day:
    the duration is divided by 24 hours with truncation (whole days, rounded
    down), and a result below 1 is recorded as 1. *)
Theorem closed_age_truncates (i : IssueP) :
  (Issue.PullRequestLinks i = None ∨ Issue.ClosedAt i = None →
   recordAge i = Ok None)
  ∧ (∀ T, is_Some (Issue.PullRequestLinks i) →
          Issue.CreatedAt i = Some T →
          Issue.ClosedAt i = Some (T + 36 * Hour) →
          recordAge i = Ok (Some 1))
  ∧ (∀ created closed, is_Some (Issue.PullRequestLinks i) →
          Issue.CreatedAt i = Some created →
          Issue.ClosedAt i = Some closed →
          recordAge i
          = Ok (Some (Z.max 1 (Z.quot (Time_Sub closed created) (24 * Hour))))).
Proof.
  unfold recordAge. split_and!.
  - intros [-> | H]; [done|]. rewrite H. by destruct (Issue.PullRequestLinks i).
  - intros T [l ->] -> ->. rewrite Time_Sub_36h. by vm_compute.
  - intros created closed [l ->] -> ->. do 2 f_equal.
    case_decide; lia.
Qed.

Lemma closed_age_truncates_witness :
  recordAge issue42 = Ok None ∧ recordAge issue43 = Ok (Some 1).
Proof.
  split.
  - apply (proj1 (closed_age_truncates issue42)). by left.
  - apply (proj1 (proj2 (closed_age_truncates issue43)) 1500000000000000000);
      [by eexists|reflexivity|reflexivity].
Defined.

(** ** Pagination *)

(** C3, as the spec has it, fails: a reply whose next page equals the page
    just requested does not end the loop; the same page is requested
    again. *)
Lemma pagination_equal_page_counterexample :
  listTimeline [Page [] 1] "cockroachdb" "cockroach" 7 1 None []
  = (Blocked, None,
     [ListIssueTimeline "cockroachdb" "cockroach" 7 1 perPage;
      ListIssueTimeline "cockroachdb" "cockroach" 7 1 perPage], [])
  ∧ ¬ (∀ feed owner repo num page acc tr items NextPage,
         ¬ (page < NextPage) →
         (listTimeline (Page items NextPage :: feed) owner repo num page acc tr).1.1.1
         = Returned).
Proof.
  split; [done|]. intros H.
  specialize (H [] "cockroachdb" "cockroach" 7 1 None [] [] 1).
  by (assert (¬ (1 < 1)) as Hlt by lia; specialize (H Hlt)).
Qed.

(** C3 (pagination), amended.  In each of the three loops, a page whose
    reported next page is strictly smaller than the page just requested ends
    the loop with no further request; any other page, one that reports the
    requested page itself included, makes the loop go on with a request for
    the reported next page. *)
Theorem pagination_ends_on_smaller_next_page :
  (∀ feed st page issues NextPage p',
      storeIssues (proj st) issues = Some p' →
      (NextPage < page →
       listIssues (Page issues NextPage :: feed) st page
       = (Returned, setProj (emit st (listRequest (proj st) page)) p', feed))
      ∧ (¬ (NextPage < page) →
         listIssues (Page issues NextPage :: feed) st page
         = listIssues feed (setProj (emit st (listRequest (proj st) page)) p')
             NextPage))
  ∧ (∀ feed owner repo num page acc tr commits NextPage,
      (NextPage < page →
       listCommits (Page commits NextPage :: feed) owner repo num page acc tr
       = (Returned, append acc commits,
          tr ++ [ListCommits owner repo num page perPage], feed))
      ∧ (¬ (NextPage < page) →
         listCommits (Page commits NextPage :: feed) owner repo num page acc tr
         = listCommits feed owner repo num NextPage (append acc commits)
             (tr ++ [ListCommits owner repo num page perPage])))
  ∧ (∀ feed owner repo num page acc tr timeline NextPage,
      (NextPage < page →
       listTimeline (Page timeline NextPage :: feed) owner repo num page acc tr
       = (Returned, append acc timeline,
          tr ++ [ListIssueTimeline owner repo num page perPage], feed))
      ∧ (¬ (NextPage < page) →
         listTimeline (Page timeline NextPage :: feed) owner repo num page acc tr
         = listTimeline feed owner repo num NextPage (append acc timeline)
             (tr ++ [ListIssueTimeline owner repo num page perPage]))).
Proof.
  split_and!.
  - intros feed st page issues NextPage p' Hs. simpl. rewrite Hs.
    split; intros Hlt; by rewrite decide_bool_decide,
      ?(bool_decide_eq_true_2 _ Hlt), ?(bool_decide_eq_false_2 _ Hlt).
  - intros. simpl. split; intros Hlt; by rewrite decide_bool_decide,
      ?(bool_decide_eq_true_2 _ Hlt), ?(bool_decide_eq_false_2 _ Hlt).
  - intros. simpl. split; intros Hlt; by rewrite decide_bool_decide,
      ?(bool_decide_eq_true_2 _ Hlt), ?(bool_decide_eq_false_2 _ Hlt).
Qed.

Lemma pagination_ends_on_smaller_next_page_witness :
  listCommits [Page [] 2; Page [] 0] "cockroachdb" "cockroach" 7 1 None []
  = (Returned, None,
     [ListCommits "cockroachdb" "cockroach" 7 1 perPage;
      ListCommits "cockroachdb" "cockroach" 7 2 perPage], []).
Proof.
  destruct pagination_ends_on_smaller_next_page as (_ & H & _).
  rewrite (proj2 (H [Page [] 0] "cockroachdb" "cockroach" 7 1 None [] [] 2))
    by lia.
  simpl append. simpl app.
  by rewrite (proj1 (H [] "cockroachdb" "cockroach" 7 2 None
    [ListCommits "cockroachdb" "cockroach" 7 1 perPage] [] 0)) by lia.
Defined.

(** ** Runs of the fetch loops *)

Lemma addEvents_nil st : addEvents st [] = st.
Proof. destruct st. unfold addEvents. simpl. by rewrite app_nil_r. Qed.

Lemma addEvents_app st evs1 evs2 :
  addEvents (addEvents st evs1) evs2 = addEvents st (evs1 ++ evs2).
Proof. unfold addEvents. simpl. by rewrite app_assoc. Qed.

Lemma emit_addEvents st e : emit st e = addEvents st [e].
Proof. done. Qed.

Lemma storeIssues_fields issues : ∀ p p',
  storeIssues p issues = Some p' →
  Project.Owner p' = Project.Owner p ∧ Project.Repo p' = Project.Repo p
  ∧ Project.RefreshedAt p' = Project.RefreshedAt p
  ∧ Project.users p' = Project.users p
  ∧ Project.milestones p' = Project.milestones p
  ∧ Project.repos p' = Project.repos p.
Proof.
  induction issues as [|[issue|] issues IH]; intros p p' Hs; simplify_eq/=; [done|].
  destruct (Issue.Number issue) as [n|]; [|done].
  by apply IH in Hs as (-> & -> & -> & -> & -> & ->).
Qed.

(** A run of Phase A only lists and sleeps; it leaves the cache directory
    and the scalar fields of the project alone. *)
Lemma listIssues_run feed : ∀ st page e st' feed',
  listIssues feed st page = (e, st', feed') →
  ∃ evs, trace st' = trace st ++ listRequest (proj st) page :: evs
    ∧ Forall (λ ev, isListing ev = true) evs
    ∧ disk st' = disk st
    ∧ Project.Owner (proj st') = Project.Owner (proj st)
    ∧ Project.Repo (proj st') = Project.Repo (proj st)
    ∧ Project.RefreshedAt (proj st') = Project.RefreshedAt (proj st)
    ∧ e ≠ Exited.
Proof.
  induction feed as [|[|issues next] feed IH]; intros st page e st' feed' Hrun.
  - simplify_eq/=. exists []. by split_and!.
  - simpl in Hrun. apply IH in Hrun as (evs & Htr & Hev & Hd & Ho & Hr & Ht & He).
    simpl in *. exists (Sleep (5 * Second) :: listRequest (proj st) page :: evs).
    split_and!; try done.
    + rewrite Htr. by rewrite <-!app_assoc.
    + by repeat constructor.
  - simpl in Hrun.
    destruct (storeIssues (proj st) issues) as [p'|] eqn:Hs.
    + apply storeIssues_fields in Hs as (Ho & Hr & Ht & _).
      case_decide.
      * simplify_eq/=. exists []. by split_and!.
      * apply IH in Hrun as (evs & Htr & Hev & Hd & Ho' & Hr' & Ht' & He).
        simpl in *. exists (listRequest p' next :: evs).
        split_and!; try congruence.
        -- rewrite Htr, <-app_assoc. done.
        -- constructor; [done|]. done.
    + simplify_eq/=. exists []. by split_and!.
Qed.

Lemma listCommits_run feed owner repo num : ∀ page acc tr e acc' tr' feed',
  listCommits feed owner repo num page acc tr = (e, acc', tr', feed') →
  ∃ used evs, feed = used ++ feed' ∧ tr' = tr ++ evs
    ∧ Forall (λ ev, isCommitRequest num ev = true) evs
    ∧ (Failed ∈ used → e = Exited)
    ∧ (e = Exited → last used = Some Failed)
    ∧ e ≠ Panicked.
Proof.
  induction feed as [|[|items next] feed IH]; intros page acc tr e acc' tr' feed' Hrun;
    simpl in Hrun.
  - simplify_eq. exists [], [ListCommits owner repo num page perPage].
    split_and!; try done.
    + repeat constructor. simpl. by rewrite bool_decide_eq_true.
    + by intros ?%elem_of_nil.
  - simplify_eq. exists [Failed], [ListCommits owner repo num page perPage].
    split_and!; try done.
    repeat constructor. simpl. by rewrite bool_decide_eq_true.
  - case_decide.
    + simplify_eq. exists [Page items next], [ListCommits owner repo num page perPage].
      split_and!; try done.
      * repeat constructor. simpl. by rewrite bool_decide_eq_true.
      * intros Hin. apply list_elem_of_singleton in Hin. done.
    + apply IH in Hrun as (used & evs & -> & -> & Hev & Hf & Hl & Hp).
      exists (Page items next :: used), (ListCommits owner repo num page perPage :: evs).
      split_and!; try done.
      * by rewrite <-app_assoc.
      * constructor; [|done]. simpl. by rewrite bool_decide_eq_true.
      * intros Hin. apply elem_of_cons in Hin as [?|?]; [done|auto].
      * intros He. specialize (Hl He). destruct used; [done|]. done.
Qed.

Lemma listTimeline_run feed owner repo num : ∀ page acc tr e acc' tr' feed',
  listTimeline feed owner repo num page acc tr = (e, acc', tr', feed') →
  ∃ used evs, feed = used ++ feed' ∧ tr' = tr ++ evs
    ∧ Forall (λ ev, isTimelineRequest num ev = true) evs
    ∧ (Failed ∈ used → e = Exited)
    ∧ (e = Exited → last used = Some Failed)
    ∧ e ≠ Panicked.
Proof.
  induction feed as [|[|items next] feed IH]; intros page acc tr e acc' tr' feed' Hrun;
    simpl in Hrun.
  - simplify_eq. exists [], [ListIssueTimeline owner repo num page perPage].
    split_and!; try done.
    + repeat constructor. simpl. by rewrite bool_decide_eq_true.
    + by intros ?%elem_of_nil.
  - simplify_eq. exists [Failed], [ListIssueTimeline owner repo num page perPage].
    split_and!; try done.
    repeat constructor. simpl. by rewrite bool_decide_eq_true.
  - case_decide.
    + simplify_eq.
      exists [Page items next], [ListIssueTimeline owner repo num page perPage].
      split_and!; try done.
      * repeat constructor. simpl. by rewrite bool_decide_eq_true.
      * intros Hin. apply list_elem_of_singleton in Hin. done.
    + apply IH in Hrun as (used & evs & -> & -> & Hev & Hf & Hl & Hp).
      exists (Page items next :: used),
        (ListIssueTimeline owner repo num page perPage :: evs).
      split_and!; try done.
      * by rewrite <-app_assoc.
      * constructor; [|done]. simpl. by rewrite bool_decide_eq_true.
      * intros Hin. apply elem_of_cons in Hin as [?|?]; [done|auto].
      * intros He. specialize (Hl He). destruct used; [done|]. done.
Qed.

Lemma internIssue_Number h p i p' i' :
  internIssue h p i = Some (p', i') → Issue.Number i' = Issue.Number i.
Proof.
  unfold internIssue. repeat case_match. intros Hi.
  repeat (destruct (overSlice _ _ _) as [[??]|]; simplify_eq/=). done.
Qed.

(** The interners only add to the three tables. *)

Lemma internUser_le h p u : store_le p (internUser h p u).1.
Proof.
  rewrite internUser_ref. split; simpl; auto using map_le_refl, internRef_le.
Qed.

Lemma internMilestone_le h p m : store_le p (internMilestone h p m).1.
Proof.
  rewrite internMilestone_ref. split; simpl; auto using map_le_refl, internRef_le.
Qed.

Lemma internRepo_le h p r : store_le p (internRepo h p r).1.
Proof.
  rewrite internRepo_ref. split; simpl; auto using map_le_refl, internRef_le.
Qed.

Lemma internUsers_le h us : ∀ p, store_le p (internUsers h p us).1.
Proof.
  induction us as [|u us IH]; intros p; simpl; [apply store_le_refl|].
  pose proof (internUser_le h p u) as H1.
  destruct (internUser h p u) as [p1 u1]. specialize (IH p1).
  destruct (internUsers h p1 us) as [p2 us2]. simpl in *.
  eauto using store_le_trans.
Qed.

Lemma internTimeline_le h ts : ∀ p p' ts',
  internTimeline h p ts = Some (p', ts') → store_le p p'.
Proof.
  induction ts as [|[t|] ts IH]; intros p p' ts' Hi; simplify_eq/=;
    [apply store_le_refl|].
  pose proof (internUser_le h p (Timeline.Actor t)) as H1.
  destruct (internUser h p _) as [p1 a].
  pose proof (internUser_le h p1 (Timeline.Assignee t)) as H2.
  destruct (internUser h p1 _) as [p2 b].
  pose proof (internMilestone_le h p2 (Timeline.Milestone t)) as H3.
  destruct (internMilestone h p2 _) as [p3 m].
  destruct (internTimeline h p3 ts) as [[p4 ts4]|] eqn:H4; simplify_eq/=.
  apply IH in H4. eauto using store_le_trans.
Qed.

Lemma internCommits_le h cs : ∀ p p' cs',
  internCommits h p cs = Some (p', cs') → store_le p p'.
Proof.
  induction cs as [|[c|] cs IH]; intros p p' cs' Hi; simplify_eq/=;
    [apply store_le_refl|].
  pose proof (internUser_le h p (RepositoryCommit.Author c)) as H1.
  destruct (internUser h p _) as [p1 a].
  pose proof (internUser_le h p1 (RepositoryCommit.Committer c)) as H2.
  destruct (internUser h p1 _) as [p2 b].
  destruct (internCommits h p2 cs) as [[p3 cs3]|] eqn:H3; simplify_eq/=.
  apply IH in H3. eauto using store_le_trans.
Qed.

Lemma internIssue_le h p i p' i' :
  internIssue h p i = Some (p', i') → store_le p p'.
Proof.
  unfold internIssue.
  pose proof (internUser_le h p (Issue.User i)) as H1.
  destruct (internUser h p _) as [p1 u].
  pose proof (internUser_le h p1 (Issue.Assignee i)) as H2.
  destruct (internUser h p1 _) as [p2 a].
  pose proof (internUser_le h p2 (Issue.ClosedBy i)) as H3.
  destruct (internUser h p2 _) as [p3 c].
  pose proof (internUsers_le h (Issue.Assignees i) p3) as H4.
  destruct (internUsers h p3 _) as [p4 asg].
  pose proof (internMilestone_le h p4 (Issue.Milestone i)) as H5.
  destruct (internMilestone h p4 _) as [p5 m].
  pose proof (internRepo_le h p5 (Issue.Repository i)) as H6.
  destruct (internRepo h p5 _) as [p6 r]. simpl in *.
  destruct (overSlice (internTimeline h) p6 _) as [[p7 tl]|] eqn:H7; [|done].
  simpl.
  destruct (overSlice (internCommits h) p7 _) as [[p8 cm]|] eqn:H8; [|done].
  simpl. intros [= <- <-].
  assert (store_le p6 p7).
  { unfold overSlice in H7. destruct (Issue.Timeline i) as [l|]; simplify_eq/=;
      [|apply store_le_refl].
    destruct (internTimeline h p6 l) as [[q l']|] eqn:Hl; simplify_eq/=.
    by apply internTimeline_le in Hl. }
  assert (store_le p7 p8).
  { unfold overSlice in H8. destruct (Issue.Commits i) as [l|]; simplify_eq/=;
      [|apply store_le_refl].
    destruct (internCommits h p7 l) as [[q l']|] eqn:Hl; simplify_eq/=.
    by apply internCommits_le in Hl. }
  eauto 10 using store_le_trans.
Qed.

(** The last step of an iteration of the backfill: it writes one file when
    it returns, and nothing otherwise. *)
Lemma internAndSave_run h st num i e st' :
  internAndSave h st num i = (e, st') →
  Project.Owner (proj st') = Project.Owner (proj st)
  ∧ Project.Repo (proj st') = Project.Repo (proj st)
  ∧ Project.RefreshedAt (proj st') = Project.RefreshedAt (proj st)
  ∧ (∀ n, n ≠ num → Project.issues (proj st') !! n = Project.issues (proj st) !! n)
  ∧ (e = Returned → is_Some (Project.issues (proj st') !! num)
       ∧ ∃ name c, trace st' = trace st ++ [Written name c]
           ∧ disk st' = <[name := c]> (disk st))
  ∧ (e ≠ Returned → trace st' = trace st ∧ disk st' = disk st)
  ∧ e ≠ Blocked.
Proof.
  unfold internAndSave.
  destruct (internIssue h (proj st) i) as [[p1 i1]|] eqn:Hi.
  2: { intros [= <- <-]. split_and!; try done. }
  apply internIssue_le in Hi as [_ _ _ Hiss Ho Hr Ht].
  assert (∀ n, n ≠ num →
    (<[num:=i1]> (Project.issues p1) : gmap Z IssueP) !! n
    = Project.issues (proj st) !! n) as Hother.
  { intros n Hn. rewrite lookup_insert_ne by done. by rewrite Hiss. }
  destruct (Issue.Number i1) as [n|].
  2: { intros [= <- <-]. simpl. split_and!; try done. }
  unfold saveJSON, WriteFile.
  destruct (disk _ !! Sprintf_d n) as [[| | |]|]; intros [= <- <-]; simpl;
    split_and!; try done; intros _; (split; [by rewrite lookup_insert_eq|eauto]).
Qed.

(** One iteration of the backfill: what it consumes of the two feeds and
    what it emits after [Visit], namely commit requests, then timeline
    requests, then at most one write. *)
Lemma backfill_run h fs st num i e st' fs' :
  backfill h fs st num i = (e, st', fs') →
  ∃ usedC usedT evsC evsT evsW,
    commitsFeed fs = usedC ++ commitsFeed fs'
    ∧ timelineFeed fs = usedT ++ timelineFeed fs'
    ∧ trace st' = trace st ++ Visit num :: evsC ++ evsT ++ evsW
    ∧ Forall (λ ev, isCommitRequest num ev = true) evsC
    ∧ Forall (λ ev, isTimelineRequest num ev = true) evsT
    ∧ Forall (λ ev, isWritten ev = true) evsW
    ∧ (¬ (is_Some (Issue.PullRequestLinks i) ∧ Issue.Commits i = None) → evsC = [])
    ∧ (Issue.Timeline i ≠ None → evsT = [])
    ∧ (e ≠ Returned → evsW = [] ∧ disk st' = disk st)
    ∧ (Failed ∈ usedC → e = Exited ∧ last usedC = Some Failed ∧ usedT = [] ∧ evsT = [])
    ∧ (Failed ∈ usedT → e = Exited ∧ last usedT = Some Failed)
    ∧ Project.Owner (proj st') = Project.Owner (proj st)
    ∧ Project.Repo (proj st') = Project.Repo (proj st)
    ∧ Project.RefreshedAt (proj st') = Project.RefreshedAt (proj st)
    ∧ (∀ n, n ≠ num → Project.issues (proj st') !! n = Project.issues (proj st) !! n)
    ∧ disk st' = written (disk st) evsW.
Proof.
  unfold backfill.
  destruct (decide (is_Some (Issue.PullRequestLinks i) ∧ Issue.Commits i = None))
    as [HC|HC].
  - destruct (listCommits _ _ _ _ _ _ _) as [[[e1 cm] tr1] cf] eqn:H1.
    apply listCommits_run in H1 as (usedC & evsC & HfC & -> & HevC & HFC & HLC & HPC).
    simpl in *.
    destruct (decide (e1 = Returned)) as [->|Hne1].
    + destruct (decide (Issue.Timeline i = None)) as [HT|HT].
      * destruct (listTimeline _ _ _ _ _ _ _) as [[[e2 tl] tr2] tf] eqn:H2.
        apply listTimeline_run in H2
          as (usedT & evsT & HfT & -> & HevT & HFT & HLT & HPT).
        simpl in *.
        destruct (decide (e2 = Returned)) as [->|Hne2].
        -- destruct (internAndSave _ _ _ _) as [e3 st3] eqn:H3.
           apply internAndSave_run in H3 as (Ho & Hr & Ht & Hiss & Hret & Hnret & HB).
           simpl in *. intros [= <- <- <-].
           exists usedC, usedT, evsC, evsT.
           destruct (decide (e3 = Returned)) as [->|Hne3].
           ++ destruct Hret as [_ (name & c & Htr & Hdk)]; [done|].
              exists [Written name c]. simpl.
              split_and!; try done.
              ** rewrite Htr. by rewrite <-!app_assoc.
              ** by repeat constructor.
              ** intros Hin. by specialize (HFC Hin).
              ** intros Hin. by specialize (HFT Hin).
              ** intros n Hn. rewrite Hiss by done.
                 by rewrite !lookup_insert_ne by done.
           ++ destruct (Hnret Hne3) as [Htr Hd]. exists [].
              rewrite app_nil_r. simpl. split_and!; try done.
              ** rewrite Htr. by rewrite <-!app_assoc.
              ** intros Hin. by specialize (HFC Hin).
              ** intros Hin. by specialize (HFT Hin).
              ** intros n Hn. rewrite Hiss by done.
                 by rewrite !lookup_insert_ne by done.
        -- assert (match e2 with
                   | Returned => (Returned, st', fs')
                   | _ => (e2, setIssue (mkState
                             (Project.with_issues (proj st)
                                (<[num:=withCommits i cm]> (Project.issues (proj st))))
                             (disk st) ((trace st ++ [Visit num]) ++ evsC ++ evsT)) num
                             (withTimeline (withCommits i cm) tl),
                           mkFeeds cf tf)
                   end = (e2, setIssue (mkState
                             (Project.with_issues (proj st)
                                (<[num:=withCommits i cm]> (Project.issues (proj st))))
                             (disk st) ((trace st ++ [Visit num]) ++ evsC ++ evsT)) num
                             (withTimeline (withCommits i cm) tl),
                           mkFeeds cf tf)) as Heq by (by destruct e2).
           destruct e2; try done; intros [= <- <- <-]; simpl;
             exists usedC, usedT, evsC, evsT, []; rewrite app_nil_r;
             (split_and!; try done;
              [by rewrite <-!app_assoc
              |intros Hin; by specialize (HFC Hin)
              |try (intros Hin; by specialize (HFT Hin)); auto
              |intros n Hn; by rewrite !lookup_insert_ne by done]).
      * destruct (internAndSave _ _ _ _) as [e3 st3] eqn:H3.
        apply internAndSave_run in H3 as (Ho & Hr & Ht & Hiss & Hret & Hnret & HB).
        simpl in *. intros [= <- <- <-].
        exists usedC, [], evsC, [].
        destruct (decide (e3 = Returned)) as [->|Hne3].
        -- destruct Hret as [_ (name & c & Htr & Hdk)]; [done|].
           exists [Written name c]. simpl.
           split_and!; try done.
           ++ rewrite Htr. by rewrite <-!app_assoc.
           ++ by repeat constructor.
           ++ intros Hin. by specialize (HFC Hin).
           ++ by intros ?%elem_of_nil.
           ++ intros n Hn. rewrite Hiss by done.
              by rewrite !lookup_insert_ne by done.
        -- destruct (Hnret Hne3) as [Htr Hd]. exists [].
           rewrite app_nil_r. simpl. split_and!; try done.
           ++ rewrite Htr. by rewrite <-!app_assoc.
           ++ intros Hin. by specialize (HFC Hin).
           ++ by intros ?%elem_of_nil.
           ++ intros n Hn. rewrite Hiss by done.
              by rewrite !lookup_insert_ne by done.
    + destruct e1; try done; intros [= <- <- <-]; simpl;
        exists usedC, [], evsC, [], []; rewrite !app_nil_r;
        (split_and!; try done;
         [by rewrite <-!app_assoc
         |auto
         |by intros ?%elem_of_nil
         |intros n Hn; by rewrite !lookup_insert_ne by done]).
  - destruct (decide (Issue.Timeline i = None)) as [HT|HT].
    + destruct (listTimeline _ _ _ _ _ _ _) as [[[e2 tl] tr2] tf] eqn:H2.
      apply listTimeline_run in H2
        as (usedT & evsT & HfT & -> & HevT & HFT & HLT & HPT).
      simpl in *.
      destruct (decide (e2 = Returned)) as [->|Hne2].
      * destruct (internAndSave _ _ _ _) as [e3 st3] eqn:H3.
        apply internAndSave_run in H3 as (Ho & Hr & Ht & Hiss & Hret & Hnret & HB).
        simpl in *. intros [= <- <- <-].
        exists [], usedT, [], evsT.
        destruct (decide (e3 = Returned)) as [->|Hne3].
        -- destruct Hret as [_ (name & c & Htr & Hdk)]; [done|].
           exists [Written name c]. simpl.
           split_and!; try done.
           ++ rewrite Htr. by rewrite <-!app_assoc.
           ++ by repeat constructor.
           ++ by intros ?%elem_of_nil.
           ++ intros Hin. by specialize (HFT Hin).
           ++ intros n Hn. rewrite Hiss by done.
              by rewrite !lookup_insert_ne by done.
        -- destruct (Hnret Hne3) as [Htr Hd]. exists [].
           rewrite app_nil_r. simpl. split_and!; try done.
           ++ rewrite Htr. by rewrite <-!app_assoc.
           ++ by intros ?%elem_of_nil.
           ++ intros Hin. by specialize (HFT Hin).
           ++ intros n Hn. rewrite Hiss by done.
              by rewrite !lookup_insert_ne by done.
      * destruct e2; try done; intros [= <- <- <-]; simpl;
          exists [], usedT, [], evsT, []; rewrite !app_nil_r;
          (split_and!; try done;
           [by rewrite <-!app_assoc
           |by intros ?%elem_of_nil
           |auto
           |intros n Hn; by rewrite !lookup_insert_ne by done]).
    + intros [= <- <- <-]. simpl. exists [], [], [], [], []. simpl.
      split_and!; try done; by intros ?%elem_of_nil.
Qed.

(** ** Events *)

Lemma visits_app tr1 tr2 : visits (tr1 ++ tr2) = visits tr1 ++ visits tr2.
Proof. apply omap_app. Qed.

(** Solves [Forall P (l1 ++ ... ++ ln)] for a property [P] of events that
    follows, by cases on the event, from the ones known of the [li]. *)
Ltac forall_events :=
  rewrite ?Forall_app, ?Forall_cons, ?Forall_nil; split_and?; try done;
  try (eapply Forall_impl; [eassumption|];
       intros []; simpl; intros; repeat case_bool_decide; simplify_eq/=;
       try done; try (split; congruence); congruence).

Lemma visits_none evs :
  Forall (λ ev, match ev with Visit _ => False | _ => True end) evs →
  visits evs = [].
Proof.
  induction 1 as [|ev evs Hev _ IH]; [done|].
  change (ev :: evs) with ([ev] ++ evs). rewrite visits_app, IH.
  by destruct ev.
Qed.

(** What one iteration of the backfill emits, by kind of event. *)
Lemma backfill_events h fs st num i e st' fs' :
  backfill h fs st num i = (e, st', fs') →
  ∃ evs, trace st' = trace st ++ Visit num :: evs
    ∧ visits evs = []
    ∧ Forall (λ ev, isListing ev = false) evs
    ∧ (∀ n, n ≠ num →
         Forall (λ ev, isTimelineRequest n ev = false ∧ isCommitRequest n ev = false) evs)
    ∧ (Issue.Timeline i ≠ None → Forall (λ ev, isTimelineRequest num ev = false) evs)
    ∧ (¬ (is_Some (Issue.PullRequestLinks i) ∧ Issue.Commits i = None) →
         Forall (λ ev, isCommitRequest num ev = false) evs)
    ∧ (e ≠ Returned → disk st' = disk st ∧ Forall (λ ev, isFetch ev = true) evs)
    ∧ Project.Owner (proj st') = Project.Owner (proj st)
    ∧ Project.Repo (proj st') = Project.Repo (proj st)
    ∧ Project.RefreshedAt (proj st') = Project.RefreshedAt (proj st)
    ∧ (∀ n, n ≠ num → Project.issues (proj st') !! n = Project.issues (proj st) !! n).
Proof.
  intros Hrun. apply backfill_run in Hrun
    as (usedC & usedT & evsC & evsT & evsW & _ & _ & Htr & HC & HT & HW
        & HnC & HnT & HnW & _ & _ & Ho & Hr & Ht & Hiss & _).
  exists (evsC ++ evsT ++ evsW). split_and!; [done|..|done|done|done|done].
  - apply visits_none. forall_events.
  - forall_events.
  - intros n Hn. forall_events.
  - intros Hne. rewrite (HnT Hne). forall_events.
  - intros Hne. rewrite (HnC Hne). forall_events.
  - intros Hne. destruct (HnW Hne) as [-> Hd]. split; [done|]. forall_events.
Qed.

(** Phase B over the numbers [nums]: it visits them in order, stops at the
    first iteration that does not return, and asks nothing about an issue
    that already has what the request would fetch. *)
Lemma backfillAll_trace h nums : ∀ fs st e st' fs',
  backfillAll h fs st nums = (e, st', fs') →
  ∃ evs, trace st' = trace st ++ evs
    ∧ visits evs `prefix_of` nums
    ∧ (e = Returned → visits evs = nums)
    ∧ Forall (λ ev, isListing ev = false) evs
    ∧ (∀ n, n ∉ nums →
         Forall (λ ev, isTimelineRequest n ev = false ∧ isCommitRequest n ev = false) evs)
    ∧ (NoDup nums → ∀ n i, Project.issues (proj st) !! n = Some i →
         Issue.Timeline i ≠ None →
         Forall (λ ev, isTimelineRequest n ev = false) evs)
    ∧ (NoDup nums → ∀ n i, Project.issues (proj st) !! n = Some i →
         ¬ (is_Some (Issue.PullRequestLinks i) ∧ Issue.Commits i = None) →
         Forall (λ ev, isCommitRequest n ev = false) evs)
    ∧ Project.Owner (proj st') = Project.Owner (proj st)
    ∧ Project.Repo (proj st') = Project.Repo (proj st)
    ∧ Project.RefreshedAt (proj st') = Project.RefreshedAt (proj st).
Proof.
  induction nums as [|num rest IH]; intros fs st e st' fs' Hrun; simpl in Hrun.
  { simplify_eq. exists []. rewrite app_nil_r. by split_and!. }
  destruct (Project.issues (proj st) !! num) as [i0|] eqn:Hi0.
  2: { simplify_eq. exists [Visit num]. split_and!; try done.
       - by apply prefix_cons, prefix_nil.
       - by repeat constructor.
       - intros. by repeat constructor.
       - intros. by repeat constructor.
       - intros. by repeat constructor. }
  destruct (backfill h fs st num i0) as [[e1 st1] fs1] eqn:Hb.
  apply backfill_events in Hb
    as (evs0 & Htr0 & Hv0 & Hl0 & Hoth0 & HT0 & HC0 & Hne0 & Ho0 & Hr0 & Ht0 & Hiss0).
  destruct (decide (e1 = Returned)) as [->|Hne].
  - apply IH in Hrun
      as (evsR & HtrR & HvR & HretR & HlR & HothR & HTR & HCR & HoR & HrR & HtR).
    exists (Visit num :: evs0 ++ evsR). split_and!; try congruence.
    + rewrite HtrR, Htr0. by rewrite <-app_assoc.
    + change (Visit num :: evs0 ++ evsR) with ([Visit num] ++ evs0 ++ evsR).
      rewrite !visits_app, Hv0. by apply prefix_cons.
    + intros He. change (Visit num :: evs0 ++ evsR) with ([Visit num] ++ evs0 ++ evsR).
      rewrite !visits_app, Hv0. simpl. f_equal. by apply HretR.
    + constructor; [done|]. by apply Forall_app.
    + intros n Hn. apply not_elem_of_cons in Hn as [Hn1 Hn2].
      constructor; [done|]. apply Forall_app. split; [by apply Hoth0|by apply HothR].
    + intros Hnd n i Hi HT. apply NoDup_cons in Hnd as [Hnum Hnd].
      constructor; [done|]. apply Forall_app. split.
      * destruct (decide (n = num)) as [->|Hn].
        -- apply HT0. congruence.
        -- eapply Forall_impl; [by apply Hoth0|]. by intros ? [].
      * destruct (decide (n = num)) as [->|Hn].
        -- eapply Forall_impl; [by apply HothR|]. by intros ? [].
        -- eapply HTR; [done| |done]. by rewrite Hiss0.
    + intros Hnd n i Hi HC. apply NoDup_cons in Hnd as [Hnum Hnd].
      constructor; [done|]. apply Forall_app. split.
      * destruct (decide (n = num)) as [->|Hn].
        -- apply HC0. congruence.
        -- eapply Forall_impl; [by apply Hoth0|]. by intros ? [].
      * destruct (decide (n = num)) as [->|Hn].
        -- eapply Forall_impl; [by apply HothR|]. by intros ? [].
        -- eapply HCR; [done| |done]. by rewrite Hiss0.
  - assert ((e, st', fs') = (e1, st1, fs1)) as [= -> -> ->] by (by destruct e1).
    exists (Visit num :: evs0). split_and!; try done.
    + change (Visit num :: evs0) with ([Visit num] ++ evs0).
      rewrite visits_app, Hv0. by apply prefix_cons, prefix_nil.
    + by constructor.
    + intros n Hn. apply not_elem_of_cons in Hn as [Hn1 Hn2].
      constructor; [done|]. by apply Hoth0.
    + intros Hnd n i Hi HT. constructor; [done|].
      destruct (decide (n = num)) as [->|Hn].
      * apply HT0. congruence.
      * eapply Forall_impl; [by apply Hoth0|]. by intros ? [].
    + intros Hnd n i Hi HC. constructor; [done|].
      destruct (decide (n = num)) as [->|Hn].
      * apply HC0. congruence.
      * eapply Forall_impl; [by apply Hoth0|]. by intros ? [].
Qed.

Lemma written_app d evs1 evs2 :
  written d (evs1 ++ evs2) = written (written d evs1) evs2.
Proof. apply foldl_app. Qed.

Lemma written_none evs : ∀ d,
  Forall (λ ev, isWritten ev = false) evs → written d evs = d.
Proof.
  induction evs as [|ev evs IH]; intros d Hev; [done|].
  apply Forall_cons in Hev as [Hev Hevs]. unfold written in *. simpl.
  rewrite IH by done. by destruct ev.
Qed.

(** Phase B and errors: a failed reply is the last one that the run
    consumes, the run exits, and after the [Visit] of the issue in flight
    the trace holds requests only. *)
Lemma backfillAll_failed h nums : ∀ fs st e st' fs',
  backfillAll h fs st nums = (e, st', fs') →
  ∃ usedC usedT evs,
    commitsFeed fs = usedC ++ commitsFeed fs'
    ∧ timelineFeed fs = usedT ++ timelineFeed fs'
    ∧ trace st' = trace st ++ evs
    ∧ disk st' = written (disk st) evs
    ∧ (Failed ∈ usedC ∨ Failed ∈ usedT →
         e = Exited
         ∧ ∃ pre num reqs, evs = pre ++ Visit num :: reqs
             ∧ Forall (λ ev, isFetch ev = true) reqs
             ∧ disk st' = written (disk st) pre)
    ∧ (Failed ∈ usedC → last usedC = Some Failed)
    ∧ (Failed ∈ usedT → last usedT = Some Failed).
Proof.
  induction nums as [|num rest IH]; intros fs st e st' fs' Hrun; simpl in Hrun.
  { simplify_eq. exists [], [], []. rewrite app_nil_r.
    split_and!; try done; try by intros ?%elem_of_nil.
    by intros [?%elem_of_nil|?%elem_of_nil]. }
  destruct (Project.issues (proj st) !! num) as [i0|] eqn:Hi0.
  2: { simplify_eq. exists [], [], [Visit num].
       split_and!; try done; try by intros ?%elem_of_nil.
       by intros [?%elem_of_nil|?%elem_of_nil]. }
  destruct (backfill h fs st num i0) as [[e1 st1] fs1] eqn:Hb.
  apply backfill_run in Hb
    as (usedC0 & usedT0 & evsC & evsT & evsW & HfC & HfT & Htr0 & HC & HT & HW
        & HnC & HnT & HnW & HFC & HFT & _ & _ & _ & _ & Hdk).
  assert (written (disk st) (Visit num :: evsC ++ evsT) = disk st) as Hfetch.
  { apply written_none. constructor; [done|]. forall_events. }
  assert (disk st1 = written (disk st) (Visit num :: evsC ++ evsT ++ evsW)) as Hd1.
  { change (Visit num :: evsC ++ evsT ++ evsW)
      with ((Visit num :: evsC) ++ evsT ++ evsW).
    rewrite (app_assoc _ evsT evsW), written_app. simpl app.
    by rewrite Hfetch. }
  destruct (decide (e1 = Returned)) as [->|Hne].
  - apply IH in Hrun
      as (usedCR & usedTR & evsR & HfCR & HfTR & HtrR & HdR & HFR & HLC & HLT).
    assert (Failed ∉ usedC0) as HnotC by (by intros [??]%HFC).
    assert (Failed ∉ usedT0) as HnotT by (by intros [??]%HFT).
    exists (usedC0 ++ usedCR), (usedT0 ++ usedTR),
      ((Visit num :: evsC ++ evsT ++ evsW) ++ evsR).
    split_and!.
    + by rewrite HfC, HfCR, app_assoc.
    + by rewrite HfT, HfTR, app_assoc.
    + by rewrite HtrR, Htr0, <-app_assoc.
    + by rewrite written_app, <-Hd1.
    + intros Hin.
      assert (Failed ∈ usedCR ∨ Failed ∈ usedTR) as HinR.
      { destruct Hin as [Hin|Hin]; apply elem_of_app in Hin as [?|?]; try done; auto. }
      destruct (HFR HinR) as (-> & pre & n & reqs & -> & Hreqs & HdR').
      split; [done|].
      exists ((Visit num :: evsC ++ evsT ++ evsW) ++ pre), n, reqs.
      split_and!; [by rewrite <-app_assoc|done|].
      by rewrite written_app, <-Hd1.
    + intros Hin. apply elem_of_app in Hin as [?|Hin]; [done|].
      specialize (HLC Hin). destruct usedCR; [done|].
      by rewrite last_app, HLC.
    + intros Hin. apply elem_of_app in Hin as [?|Hin]; [done|].
      specialize (HLT Hin). destruct usedTR; [done|].
      by rewrite last_app, HLT.
  - assert ((e, st', fs') = (e1, st1, fs1)) as [= -> -> ->] by (by destruct e1).
    destruct (HnW Hne) as [-> Hd]. rewrite app_nil_r in *.
    exists usedC0, usedT0, (Visit num :: evsC ++ evsT).
    split_and!; try done.
    + intros Hin. split.
      * destruct Hin as [Hin|Hin]; [by apply HFC in Hin as [??]|by apply HFT in Hin as [??]].
      * exists [], num, (evsC ++ evsT). split_and!; [done| |done]. forall_events.
    + intros Hin. by apply HFC in Hin as (_ & ? & _).
    + intros Hin. by apply HFT in Hin as (_ & ?).
Qed.

(** ** Errors in the two phases *)

Lemma listIssues_retries n : ∀ feed st page,
  listIssues (replicate n Failed ++ feed) st page
  = listIssues feed (addEvents st (retries (proj st) page n)) page.
Proof.
  induction n as [|n IH]; intros feed st page.
  - simpl. unfold retries. simpl. by rewrite addEvents_nil.
  - simpl replicate. simpl app. simpl listIssues at 1. rewrite IH.
    rewrite !emit_addEvents, !addEvents_app. done.
Qed.

(** C6 (error handling in the two phases).  Phase A: a failed listing is
    followed by a sleep of five seconds and a request for the same page;
    after any number of failures the loop is where it was, with the same
    page; against replies that all fail it never ends, and in no case does
    it exit.  Phase B: a run that consumes a failed reply of the commit or
    of the timeline endpoint exits; the failed reply is the last reply it
    consumes (no retry), and from the visit of the issue in flight on the
    trace holds requests only, so that nothing of that issue is written:
    the cache directory is as the earlier iterations left it. *)
Theorem error_handling_asymmetry :
  (∀ n feed st page,
      listIssues (replicate n Failed ++ feed) st page
      = listIssues feed (addEvents st (retries (proj st) page n)) page)
  ∧ (∀ n st page,
      listIssues (replicate n Failed) st page
      = (Blocked,
         addEvents st (retries (proj st) page n ++ [listRequest (proj st) page]),
         []))
  ∧ (∀ feed st page e st' feed',
      listIssues feed st page = (e, st', feed') → e ≠ Exited)
  ∧ (∀ h fs st e st' fs',
      phaseB h fs st = (e, st', fs') →
      ∃ usedC usedT evs,
        commitsFeed fs = usedC ++ commitsFeed fs'
        ∧ timelineFeed fs = usedT ++ timelineFeed fs'
        ∧ trace st' = trace st ++ evs
        ∧ (Failed ∈ usedC ∨ Failed ∈ usedT →
             e = Exited
             ∧ ∃ pre num reqs, evs = pre ++ Visit num :: reqs
                 ∧ Forall (λ ev, isFetch ev = true) reqs
                 ∧ disk st' = written (disk st) pre)
        ∧ (Failed ∈ usedC → last usedC = Some Failed)
        ∧ (Failed ∈ usedT → last usedT = Some Failed)).
Proof.
  split_and!.
  - intros. apply listIssues_retries.
  - intros n st page.
    rewrite <-(app_nil_r (replicate n Failed)), listIssues_retries. simpl.
    by rewrite emit_addEvents, addEvents_app.
  - intros feed st page e st' feed' Hrun.
    by apply listIssues_run in Hrun as (? & _ & _ & _ & _ & _ & _ & ?).
  - intros h fs st e st' fs' Hrun. unfold phaseB in Hrun.
    apply backfillAll_failed in Hrun
      as (usedC & usedT & evs & ? & ? & ? & ? & ? & ? & ?).
    exists usedC, usedT, evs. by split_and!.
Qed.

Lemma error_handling_asymmetry_witness :
  (phaseB sampleHeap failingFeeds sampleState).1.1 = Exited
  ∧ disk (phaseB sampleHeap failingFeeds sampleState).1.2 = ∅.
Proof.
  destruct (phaseB sampleHeap failingFeeds sampleState) as [[e st'] fs'] eqn:Hrun.
  destruct error_handling_asymmetry as (_ & _ & _ & H).
  destruct (H _ _ _ _ _ _ Hrun) as (usedC & usedT & evs & HC & HT & Htr & HF & _).
  assert (fs' = mkFeeds [] []) as ->
    by (apply (f_equal snd) in Hrun; vm_compute in Hrun; congruence).
  assert (trace st' = [Visit 43;
            ListCommits "cockroachdb" "cockroach" 43 1 perPage;
            ListIssueTimeline "cockroachdb" "cockroach" 43 1 perPage]) as Htr'
    by (apply (f_equal (λ x, trace x.1.2)) in Hrun; vm_compute in Hrun;
        symmetry; exact Hrun).
  simpl in HC, HT, Htr. rewrite app_nil_r in HC, HT. subst usedC usedT.
  destruct HF as (-> & pre & num & reqs & -> & Hreqs & Hd).
  { right. by apply list_elem_of_singleton. }
  split; [done|]. simpl. rewrite Hd.
  rewrite Htr' in Htr. destruct pre as [|ev pre]; [done|].
  exfalso. simplify_eq/=.
  destruct pre as [|? pre]; simplify_eq/=.
  destruct pre as [|? pre]; simplify_eq/=.
  destruct pre; simplify_eq/=.
Defined.

(** ** The order of the backfill *)

Lemma sortedIssues_elem p n :
  n ∈ sortedIssues p ↔ is_Some (Project.issues p !! n).
Proof.
  unfold sortedIssues. rewrite merge_sort_Permutation, list_elem_of_fmap. split.
  - intros ([k i] & -> & Hin). apply elem_of_map_to_list in Hin. by eexists.
  - intros [i Hi]. exists (n, i). split; [done|]. by apply elem_of_map_to_list.
Qed.

Lemma sortedIssues_NoDup p : NoDup (sortedIssues p).
Proof.
  unfold sortedIssues. rewrite merge_sort_Permutation.
  apply NoDup_fst_map_to_list.
Qed.

Lemma sortedIssues_sorted p : StronglySorted Z.le (sortedIssues p).
Proof. apply StronglySorted_merge_sort; apply _. Qed.

Lemma descending_reverse (l : list Z) :
  StronglySorted Z.le l → NoDup l → StronglySorted (λ a b, b < a) (reverse l).
Proof.
  induction 1 as [|x l Hl IH Hx]; intros Hnd; [constructor|].
  apply NoDup_cons in Hnd as [Hnotin Hnd]. rewrite reverse_cons.
  apply StronglySorted_app_2; [|by apply IH|repeat constructor].
  intros x1 x2 Hx1 Hx2%list_elem_of_singleton. subst x2.
  rewrite elem_of_reverse in Hx1. rewrite Forall_forall in Hx. specialize (Hx _ Hx1).
  assert (x ≠ x1) by (by intros ->). lia.
Qed.

(** C5 (backfill skip rule).  In a run of Phase B, whatever its ending: no
    timeline request is issued for an issue whose timeline is non-empty
    when Phase B starts (its record is not touched before its own visit),
    and no commit request for a pull request whose commits are non-empty;
    the numbers visited are an initial part of the issue numbers in
    descending order, and all of them when Phase B returns: each issue
    number once. *)
Theorem backfill_skip_rule (h : Heap) (fs fs' : Feeds) (st st' : State) (e : Ending) :
  phaseB h fs st = (e, st', fs') →
  ∃ evs, trace st' = trace st ++ evs
    ∧ (∀ num i, Project.issues (proj st) !! num = Some i →
         (0 < len (Issue.Timeline i))%nat →
         Forall (λ ev, isTimelineRequest num ev = false) evs)
    ∧ (∀ num i, Project.issues (proj st) !! num = Some i →
         is_Some (Issue.PullRequestLinks i) →
         (0 < len (Issue.Commits i))%nat →
         Forall (λ ev, isCommitRequest num ev = false) evs)
    ∧ visits evs `prefix_of` reverse (sortedIssues (proj st))
    ∧ (e = Returned → visits evs = reverse (sortedIssues (proj st)))
    ∧ StronglySorted (λ a b, b < a) (reverse (sortedIssues (proj st)))
    ∧ NoDup (reverse (sortedIssues (proj st)))
    ∧ (∀ n, n ∈ reverse (sortedIssues (proj st))
            ↔ is_Some (Project.issues (proj st) !! n)).
Proof.
  intros Hrun. unfold phaseB in Hrun.
  apply backfillAll_trace in Hrun
    as (evs & Htr & Hpre & Hret & _ & _ & HT & HC & _).
  assert (NoDup (reverse (sortedIssues (proj st)))) as Hnd.
  { rewrite reverse_Permutation. apply sortedIssues_NoDup. }
  exists evs. split_and!; try done.
  - intros num i Hi Hlen. eapply HT; [done..|].
    intros Hnil. rewrite Hnil in Hlen. simpl in Hlen. lia.
  - intros num i Hi _ Hlen. eapply HC; [done..|].
    intros [_ Hnil]. rewrite Hnil in Hlen. simpl in Hlen. lia.
  - apply descending_reverse; [apply sortedIssues_sorted|apply sortedIssues_NoDup].
  - intros n. rewrite elem_of_reverse. apply sortedIssues_elem.
Qed.

Lemma backfill_skip_rule_witness :
  ∃ evs, trace (phaseB sampleHeap sampleFeeds sampleState).1.2 = evs
    ∧ visits evs = [43; 42]
    ∧ Forall (λ ev, isTimelineRequest 42 ev = false) evs.
Proof.
  destruct (phaseB sampleHeap sampleFeeds sampleState) as [[e st'] fs'] eqn:Hrun.
  destruct (backfill_skip_rule _ _ _ _ _ _ Hrun)
    as (evs & Htr & HT & _ & _ & Hret & _).
  exists evs. simpl in *. split_and!; [done| |].
  - rewrite Hret; [by vm_compute|].
    apply (f_equal (λ x, x.1.1)) in Hrun. vm_compute in Hrun. congruence.
  - apply (HT 42 issue42b); [by vm_compute|]. simpl. lia.
Defined.

(** ** The watermark *)

(** C4 (watermark).  When Phase A completes, [RefreshedAt] at the end of
    the run is the time that was read before the first listing request, not
    a later one.  The trace is: the reading of the clock, the requests and
    sleeps of Phase A, then the write of the metadata with that time, and
    only then the events of Phase B; with a metadata file that cannot be
    written the run exits right after Phase A, with no event of Phase B. *)
Theorem watermark_is_start_time (h : Heap) (env : Env) (st st' stA : State)
    (e : Ending) (feedA : list (Reply (option IssueP))) :
  refresh h env st = (e, st') →
  listIssues (issuesFeed env) (emit st (Now (clock env))) 1 = (Returned, stA, feedA) →
  Project.RefreshedAt (proj st') = clock env
  ∧ ∃ evsA,
      trace stA = trace st ++ Now (clock env) :: listRequest (proj st) 1 :: evsA
      ∧ Forall (λ ev, isListing ev = true) evsA
      ∧ disk stA = disk st
      ∧ ((disk st !! "meta" = Some Dir ∧ e = Exited
          ∧ trace st' = trace stA ∧ disk st' = disk st)
         ∨ (∃ evsB,
              trace st' = trace stA
                ++ Written "meta" (MetaDoc (Project.Owner (proj st))
                                     (Project.Repo (proj st)) (clock env)) :: evsB
              ∧ Forall (λ ev, isListing ev = false) evsB
              ∧ disk st'
                = written (<["meta" := MetaDoc (Project.Owner (proj st))
                                         (Project.Repo (proj st)) (clock env)]>
                             (disk st)) evsB)).
Proof.
  intros Hrun HA. unfold refresh in Hrun. rewrite HA in Hrun.
  apply listIssues_run in HA as (evsA & HtrA & HevA & HdA & HoA & HrA & HtA & _).
  simpl in HtrA, HdA, HoA, HrA, HtA.
  unfold Project_save, saveJSON, WriteFile in Hrun. simpl in Hrun.
  rewrite HdA, HoA, HrA in Hrun.
  assert (∀ d', (let '(e0, st3, _) :=
      phaseB h (feeds env)
        (mkState (Project.with_RefreshedAt (proj stA) (clock env)) d'
           (trace stA ++ [Written "meta" (MetaDoc (Project.Owner (proj st))
                                            (Project.Repo (proj st)) (clock env))]))
      in (e0, st3)) = (e, st') →
    d' = <["meta" := MetaDoc (Project.Owner (proj st)) (Project.Repo (proj st))
                        (clock env)]> (disk st) →
    Project.RefreshedAt (proj st') = clock env
    ∧ ∃ evsB, trace st' = trace stA
                ++ Written "meta" (MetaDoc (Project.Owner (proj st))
                                     (Project.Repo (proj st)) (clock env)) :: evsB
        ∧ Forall (λ ev, isListing ev = false) evsB
        ∧ disk st' = written d' evsB) as HB.
  { intros d' HrunB Hd'.
    destruct (phaseB _ _ _) as [[e0 st3] fs3] eqn:HpB. simplify_eq.
    unfold phaseB in HpB. pose proof HpB as HpB'.
    apply backfillAll_trace in HpB
      as (evsB & HtrB & _ & _ & HlB & _ & _ & _ & _ & _ & HtB).
    apply backfillAll_failed in HpB' as (_ & _ & evsB' & _ & _ & HtrB' & HdB & _).
    rewrite HtrB in HtrB'. apply app_inv_head in HtrB'. subst evsB'.
    simpl in *. split; [done|]. exists evsB. split_and!; [|done|done].
    by rewrite HtrB, <-app_assoc. }
  split.
  - destruct (disk st !! "meta") as [[| | |]|];
      first [by simplify_eq|by destruct (HB _ Hrun eq_refl)].
  - exists evsA. split_and!; [by rewrite HtrA, <-app_assoc|done|done|].
    destruct (disk st !! "meta") as [[| | |]|] eqn:Hmeta;
      try (right; destruct (HB _ Hrun eq_refl) as [_ (evsB & ? & ? & ?)];
           by exists evsB).
    left. by simplify_eq.
Qed.

Lemma watermark_is_start_time_witness :
  Project.RefreshedAt (proj (refresh sampleHeap sampleEnv sampleState).2)
  = 1700000000000000000.
Proof.
  destruct (refresh sampleHeap sampleEnv sampleState) as [e st'] eqn:Hrun.
  destruct (listIssues (issuesFeed sampleEnv)
              (emit sampleState (Now (clock sampleEnv))) 1)
    as [[eA stA] feedA] eqn:HA.
  assert (eA = Returned) as ->.
  { apply (f_equal (λ x, x.1.1)) in HA. vm_compute in HA. congruence. }
  exact (proj1 (watermark_is_start_time _ _ _ _ _ _ _ Hrun HA)).
Defined.

(** ** Loading the cache *)

Ltac destruct_lets :=
  repeat match goal with
         | |- context [let '(_, _) := ?x in _] => destruct x
         end.

Lemma unmarshalIssue_Number h v : Issue.Number (unmarshalIssue h v).2 = Issue.Number v.
Proof. unfold unmarshalIssue. by destruct_lets. Qed.

Lemma loadFiles_skip h d p name rest :
  (Atoi name).1 = 0 → loadFiles h d p (name :: rest) = loadFiles h d p rest.
Proof. intros H0. simpl. by rewrite decide_True. Qed.

Lemma loadFiles_ingest h d p name rest :
  (Atoi name).1 ≠ 0 →
  loadFiles h d p (name :: rest)
  = '(h1, p1) ← ingest h d p name; loadFiles h1 d p1 rest.
Proof. intros H0. simpl. by rewrite decide_False. Qed.

(** C10 (the key of a loaded issue).  [load] stores the issue of a file
    under the [Number] that the document carries, whatever the name of the
    file, in place of what the store held under that number; and a document
    that parses but carries no [Number] makes [load] panic on the nil
    dereference: it does not leave through [log.Fatal]. *)
Theorem load_keys_by_inner_number (h : Heap) (d : Disk) (p : Project.t)
    (name : string) (v : IssueJ) (rest : list string) :
  (Atoi name).1 ≠ 0 →
  d !! name = Some (IssueDoc v) →
  (∀ k p1 i1,
      Issue.Number v = Some k →
      internIssue (unmarshalIssue h v).1 p (unmarshalIssue h v).2 = Some (p1, i1) →
      Issue.Number i1 = Some k
      ∧ loadFiles h d p (name :: rest)
        = loadFiles (unmarshalIssue h v).1 d
            (Project.with_issues p1 (<[k := i1]> (Project.issues p))) rest)
  ∧ (Issue.Number v = None →
     loadFiles h d p (name :: rest) = Panic
     ∧ loadFiles h d p (name :: rest) ≠ Fatal).
Proof.
  intros Hn Hd.
  assert (loadJSON_Issue h d name = Ok (unmarshalIssue h v)) as Hload
    by (unfold loadJSON_Issue; by rewrite Hd).
  split.
  - intros k p1 i1 Hk Hi. rewrite loadFiles_ingest by done.
    unfold ingest. rewrite Hload. simpl.
    destruct (unmarshalIssue h v) as [h1 i0] eqn:Hu. simpl in *. rewrite Hi. simpl.
    pose proof (internIssue_Number _ _ _ _ _ Hi) as Hnum.
    pose proof (unmarshalIssue_Number h v) as Hnum0. rewrite Hu in Hnum0. simpl in Hnum0.
    rewrite Hnum, Hnum0, Hk. simpl. split; [done|].
    by rewrite (le_issues _ _ (internIssue_le _ _ _ _ _ Hi)).
  - intros Hnone. rewrite loadFiles_ingest by done.
    unfold ingest. rewrite Hload. simpl.
    pose proof (unmarshalIssue_Number h v) as Hnum0.
    destruct (unmarshalIssue h v) as [h1 i0] eqn:Hu. simpl in *.
    destruct (internIssue h1 p i0) as [[p1 i1]|] eqn:Hi; simpl; [|done].
    rewrite (internIssue_Number _ _ _ _ _ Hi), Hnum0, Hnone. done.
Qed.

Lemma load_keys_by_inner_number_witness :
  (∃ h' p', load emptyHeap misnamedDir sampleProject = Ok (h', p')
            ∧ dom (Project.issues p') = {[5]})
  ∧ load emptyHeap unnumberedDir sampleProject = Panic.
Proof.
  split.
  - eexists _, _. split; [by vm_compute|]. by vm_compute.
  - assert (ReadDir unnumberedDir = ["7"]) as Hdir by (by vm_compute).
    unfold load. rewrite Hdir. simpl.
    refine (proj1 (proj2 (load_keys_by_inner_number emptyHeap unnumberedDir
                            sampleProject "7" unnumberedJ [] _ _) _));
      [by vm_compute|by vm_compute|done].
Defined.

(** ** [strconv.Atoi] on file names *)

Lemma digitOf_range c d : digitOf c = Some d → 0 ≤ d ≤ 9.
Proof. unfold digitOf. case_decide; intros; simplify_eq; lia. Qed.

Lemma digitOf_zero c : digitOf c = Some 0 → c = "0"%char.
Proof.
  unfold digitOf. case_decide; [|done]. intros [= H0].
  assert (N_of_ascii c = 48%N) as Hc by lia.
  rewrite <-(ascii_N_embedding c), Hc. done.
Qed.

Lemma digitOf_not_sign c d : digitOf c = Some d → c ≠ "+"%char ∧ c ≠ "-"%char.
Proof. intros Hd. split; intros ->; by vm_compute in Hd. Qed.

Lemma maxUint64_val : maxUint64 = 18446744073709551615.
Proof. reflexivity. Qed.

Lemma atoiLoop_digits s : ∀ n,
  allDigits s = true → 0 ≤ n →
  ∃ m, atoiLoop s n = Some m ∧ n ≤ m ∧ (0 < n ∨ allZeros s = false → 0 < m).
Proof.
  induction s as [|c s IH]; intros n Hs Hn; simpl in *.
  - exists n. split_and!; [done|lia|]. intros [?|?]; [lia|done].
  - apply andb_true_iff in Hs as [Hc Hs]. apply bool_decide_eq_true in Hc as [d Hd].
    rewrite Hd. pose proof (digitOf_range _ _ Hd).
    destruct (IH (n * 10 + d) Hs) as (m & Hm & Hle & Hpos); [lia|].
    exists m. split_and!; [done|lia|]. intros Hor. apply Hpos.
    destruct Hor as [?|Hz]; [lia|].
    apply andb_false_iff in Hz as [Hz|Hz]; [|by right].
    apply bool_decide_eq_false in Hz. left.
    destruct (decide (d = 0)) as [->|]; [|lia]. by apply digitOf_zero in Hd.
Qed.

Lemma parseUintLoop_digits s : ∀ n,
  allDigits s = true → 0 ≤ n ≤ maxUint64 →
  ∃ m err, parseUintLoop s n = (m, err) ∧ err ≠ Some ErrSyntax
    ∧ 0 ≤ m ≤ maxUint64 ∧ (0 < n ∨ allZeros s = false → 0 < m).
Proof.
  induction s as [|c s IH]; intros n Hs Hn; simpl in *.
  - exists n, None. split_and!; try done; lia.
  - apply andb_true_iff in Hs as [Hc Hs]. apply bool_decide_eq_true in Hc as [d Hd].
    rewrite Hd. pose proof (digitOf_range _ _ Hd) as Hr.
    rewrite maxUint64_val in *.
    change (18446744073709551615 `div` 10 + 1) with 1844674407370955162.
    change (2 ^ 64) with 18446744073709551616.
    case_decide as Hcut.
    { exists 18446744073709551615, (Some ErrRange). split_and!; try done; lia. }
    case_decide as Hov.
    { exists 18446744073709551615, (Some ErrRange). split_and!; try done; lia. }
    assert (0 ≤ n * 10 + d < 18446744073709551616) as Hsmall.
    { destruct (decide (n * 10 + d < 18446744073709551616)); [lia|].
      exfalso. apply Hov. left.
      rewrite <-(Z.mod_unique (n * 10 + d) 18446744073709551616 1
                   (n * 10 + d - 18446744073709551616)) by lia.
      lia. }
    rewrite (Z.mod_small _ _ Hsmall) in *.
    destruct (IH (n * 10 + d) Hs) as (m & err & Hm & Herr & Hle & Hpos); [lia|].
    exists m, err. do 3 (split; [done || lia|]). intros Hor. apply Hpos.
    destruct Hor as [?|Hz]; [lia|].
    apply andb_false_iff in Hz as [Hz|Hz]; [|by right].
    apply bool_decide_eq_false in Hz. left.
    destruct (decide (d = 0)) as [->|]; [|lia]. by apply digitOf_zero in Hd.
Qed.

(** Every purely numeric name of a positive integer passes the test of
    [load]. *)
Lemma Atoi_positiveDecimal s : positiveDecimal s = true → (Atoi s).1 ≠ 0.
Proof.
  unfold positiveDecimal. intros H.
  apply andb_true_iff in H as [H Hnz]. apply andb_true_iff in H as [Hne Hd].
  apply negb_true_iff in Hnz. apply bool_decide_eq_true in Hne.
  destruct s as [|c s]; [done|].
  pose proof Hd as Hd'. simpl in Hd'. apply andb_true_iff in Hd' as [Hc _].
  apply bool_decide_eq_true in Hc as [d Hc].
  destruct (digitOf_not_sign _ _ Hc) as [Hplus Hminus].
  unfold Atoi. case_decide as Hlen.
  - rewrite bool_decide_eq_false_2 by (intros [?|?]; done). simpl andb. cbv iota.
    destruct (atoiLoop_digits (String c s) 0 Hd) as (m & Hm & _ & Hpos); [lia|].
    rewrite Hm. rewrite decide_False by done. simpl.
    specialize (Hpos (or_intror Hnz)). lia.
  - unfold ParseInt. rewrite !decide_False by done.
    unfold ParseUint.
    destruct (parseUintLoop_digits (String c s) 0 Hd)
      as (m & err & Hm & Herr & Hle & Hpos); [rewrite maxUint64_val; lia|].
    rewrite Hm. specialize (Hpos (or_intror Hnz)).
    change (2 ^ 63) with 9223372036854775808.
    destruct err as [[|]|]; try done.
    + case_decide; [simpl; lia|]. rewrite decide_False by (by intros [? _]).
      simpl. unfold toInt64.
      change (2 ^ 63) with 9223372036854775808.
      change (2 ^ 64) with 18446744073709551616.
      rewrite Z.mod_small by lia. lia.
    + case_decide; [simpl; lia|]. rewrite decide_False by (by intros [? _]).
      simpl. unfold toInt64.
      change (2 ^ 63) with 9223372036854775808.
      change (2 ^ 64) with 18446744073709551616.
      rewrite Z.mod_small by lia. lia.
Qed.

Lemma loadFiles_filter d files : ∀ h p,
  loadFiles h d p files
  = loadFiles h d p (filter (λ f, (Atoi f).1 ≠ 0) files).
Proof.
  induction files as [|f files IH]; intros h p; [done|].
  destruct (decide ((Atoi f).1 = 0)) as [H0|H0].
  - rewrite filter_cons_False by (by intros ?). rewrite loadFiles_skip by done.
    apply IH.
  - rewrite filter_cons_True by done. rewrite !loadFiles_ingest by done.
    destruct (ingest h d p f) as [[h1 p1]| |]; simpl; [apply IH|done..].
Qed.

Lemma load_loadFiles h d p :
  load h d p = p1 ← loadJSON_Project d "meta" p; loadFiles h d p1 (ReadDir d).
Proof.
  unfold load. destruct (loadJSON_Project d "meta" p) as [p1| |]; simpl; [|done..].
  case_decide as Hlen; [done|]. destruct (ReadDir d); [done|]. simpl in Hlen. lia.
Qed.

(** C8, as the spec has it, fails: a file named [+5] is no purely numeric
    name, and [load] reads it into the store. *)
Lemma load_signed_name_counterexample :
  positiveDecimal "+5" = false
  ∧ (∃ h' p', load emptyHeap signedDir sampleProject = Ok (h', p')
              ∧ is_Some (Project.issues p' !! 5))
  ∧ ¬ (∀ h d p name, positiveDecimal name = false →
                     loadFiles h d p [name] = Ok (h, p)).
Proof.
  split_and!.
  - done.
  - eexists _, _. split; [by vm_compute|]. vm_compute. by eexists.
  - intros H. specialize (H emptyHeap signedDir sampleProject "+5" eq_refl).
    by vm_compute in H.
Qed.

(** C8 (file selection of [load]), amended.  [load] reads the metadata file
    if there is one, and its absence is no error; of the names of the
    directory it then reads, interns and stores exactly those that
    [strconv.Atoi] turns into a number other than 0, the error of [Atoi]
    being dropped.  These are all the purely numeric names of positive
    integers, and also signed names such as [+5] and [-5]; a name that
    [Atoi] turns into 0, such as [meta], [0] or [5a], is passed over and
    leaves the store as it is. *)
Theorem load_selects_nonzero_atoi (h : Heap) (d : Disk) (p : Project.t) :
  (d !! "meta" = None → loadJSON_Project d "meta" p = Ok p)
  ∧ load h d p
    = (p1 ← loadJSON_Project d "meta" p;
       loadFiles h d p1 (filter (λ f, (Atoi f).1 ≠ 0) (ReadDir d)))
  ∧ (∀ name rest, (Atoi name).1 = 0 →
       loadFiles h d p (name :: rest) = loadFiles h d p rest)
  ∧ (∀ name rest, (Atoi name).1 ≠ 0 →
       loadFiles h d p (name :: rest)
       = '(h1, p1) ← ingest h d p name; loadFiles h1 d p1 rest)
  ∧ (∀ name, positiveDecimal name = true → (Atoi name).1 ≠ 0)
  ∧ (Atoi "+5").1 = 5 ∧ (Atoi "-5").1 = -5
  ∧ (Atoi "meta").1 = 0 ∧ (Atoi "0").1 = 0 ∧ (Atoi "5a").1 = 0.
Proof.
  split_and!; try done.
  - intros Hmeta. unfold loadJSON_Project. by rewrite Hmeta.
  - rewrite load_loadFiles.
    destruct (loadJSON_Project d "meta" p) as [p1| |]; simpl; [|done..].
    apply loadFiles_filter.
  - intros. by apply loadFiles_skip.
  - intros. by apply loadFiles_ingest.
  - apply Atoi_positiveDecimal.
Qed.

Lemma load_selects_nonzero_atoi_witness :
  loadJSON_Project signedDir "meta" sampleProject = Ok sampleProject
  ∧ loadFiles emptyHeap signedDir sampleProject ["meta"; "0"]
    = Ok (emptyHeap, sampleProject)
  ∧ (Atoi "42").1 ≠ 0.
Proof.
  destruct (load_selects_nonzero_atoi emptyHeap signedDir sampleProject)
    as (Hmeta & _ & Hskip & _ & Hpos & _).
  split_and!.
  - apply Hmeta. by vm_compute.
  - rewrite Hskip by (by vm_compute). by rewrite Hskip by (by vm_compute).
  - apply Hpos. by vm_compute.
Defined.

(** ** Heaps and allocation *)

Lemma heap_le_refl h : heap_le h h.
Proof. by split_and!. Qed.

Lemma heap_le_trans h1 h2 h3 : heap_le h1 h2 → heap_le h2 h3 → heap_le h1 h3.
Proof. intros (?&?&?) (?&?&?). split_and!; by etrans. Qed.

Lemma stable_le {V} (val : Heap → ptr → V) h h1 r :
  heap_le h h1 → stable val h r → stable val h1 r ∧ val h1 r = val h r.
Proof.
  intros Hle Hs. split; [|by apply Hs].
  intros hx Hx. rewrite (Hs h1 Hle). apply Hs. by eapply heap_le_trans.
Qed.

Lemma stable_nil {V} (val : Heap → ptr → V) h :
  (∀ hx, val hx None = val h None) → stable val h None.
Proof. intros H hx _. apply H. Qed.

Lemma userAt_stable h l o : userObjs h !! l = Some o → stable userAt h (Some l).
Proof.
  intros Hl hx (Hu & _ & _). simpl. rewrite Hl.
  by eapply prefix_lookup_Some.
Qed.

Lemma milestoneAt_stable h l o :
  milestoneObjs h !! l = Some o → stable milestoneAt h (Some l).
Proof.
  intros Hl hx (_ & Hm & _). simpl. rewrite Hl.
  by eapply prefix_lookup_Some.
Qed.

Lemma repoAt_stable h l o : repoObjs h !! l = Some o → stable repoAt h (Some l).
Proof.
  intros Hl hx (_ & _ & Hr). simpl. rewrite Hl.
  by eapply prefix_lookup_Some.
Qed.

Lemma newUser_spec h u h1 r :
  newUser h u = (h1, r) →
  heap_le h h1 ∧ userAt h1 r = u ∧ stable userAt h1 r.
Proof.
  destruct u as [o|]; intros [= <- <-]; simpl.
  - assert (userObjs (mkHeap (userObjs h ++ [o]) (milestoneObjs h) (repoObjs h))
            !! length (userObjs h) = Some o) as Hl
      by (simpl; by rewrite lookup_app_r, Nat.sub_diag by lia).
    split_and!; [|done|by eapply userAt_stable].
    split_and!; simpl; [by apply prefix_app_r|done..].
  - split_and!; [apply heap_le_refl|done|by apply stable_nil].
Qed.

Lemma newMilestone_spec h m h1 r :
  newMilestone h m = (h1, r) →
  heap_le h h1 ∧ milestoneAt h1 r = m ∧ stable milestoneAt h1 r.
Proof.
  destruct m as [o|]; intros [= <- <-]; simpl.
  - assert (milestoneObjs (mkHeap (userObjs h) (milestoneObjs h ++ [o]) (repoObjs h))
            !! length (milestoneObjs h) = Some o) as Hl
      by (simpl; by rewrite lookup_app_r, Nat.sub_diag by lia).
    split_and!; [|done|by eapply milestoneAt_stable].
    split_and!; simpl; [done|by apply prefix_app_r|done].
  - split_and!; [apply heap_le_refl|done|by apply stable_nil].
Qed.

Lemma newRepo_spec h m h1 r :
  newRepo h m = (h1, r) →
  heap_le h h1 ∧ repoAt h1 r = m ∧ stable repoAt h1 r.
Proof.
  destruct m as [o|]; intros [= <- <-]; simpl.
  - assert (repoObjs (mkHeap (userObjs h) (milestoneObjs h) (repoObjs h ++ [o]))
            !! length (repoObjs h) = Some o) as Hl
      by (simpl; by rewrite lookup_app_r, Nat.sub_diag by lia).
    split_and!; [|done|by eapply repoAt_stable].
    split_and!; simpl; [done|done|by apply prefix_app_r].
  - split_and!; [apply heap_le_refl|done|by apply stable_nil].
Qed.

(** ** Documents and the issues they stand for *)

Lemma concat_fmap_ext {A B C} (f g : A → B) (refs : C → list A) (l : list C) :
  Forall (λ r, f r = g r) (concat (refs <$> l)) →
  Forall (λ x, Forall (λ r, f r = g r) (refs x)) l.
Proof.
  induction l as [|x l IH]; simpl; [constructor|].
  rewrite Forall_app. intros [??]. constructor; auto.
Qed.

(** Two readings of the references that agree on the references of an issue
    give the same document. *)
Lemma Issue_map_ext {U M R U' M' R'} (fu gu : U → U') (fm gm : M → M')
    (fr gr : R → R') (i : Issue.t U M R) :
  Forall (λ r, fu r = gu r) (userRefs i) →
  Forall (λ r, fm r = gm r) (milestoneRefs i) →
  Forall (λ r, fr r = gr r) (repoRefs i) →
  Issue_map fu fm fr i = Issue_map gu gm gr i.
Proof.
  destruct i as [n ti u a c asg m r pl ca cl tl cm].
  unfold userRefs, milestoneRefs, repoRefs, Issue_map. simpl.
  rewrite !Forall_cons, !Forall_app.
  intros (Hu & Ha & Hc & Hasg & Htl & Hcm) (Hm & Htm) (Hr & _).
  apply concat_fmap_ext in Htl, Hcm, Htm.
  f_equal; try done.
  - by apply Forall_fmap_ext.
  - destruct tl as [l|]; [|done]. simpl in *. f_equal.
    apply Forall_fmap_ext. rewrite Forall_forall in Htl, Htm.
    apply Forall_forall. intros [t|] Hin; [|done]. simpl. f_equal.
    specialize (Htl _ Hin). specialize (Htm _ Hin). simpl in Htl, Htm.
    rewrite !Forall_cons in Htl. rewrite !Forall_cons in Htm.
    destruct Htl as (? & ? & _), Htm as (? & _).
    unfold Timeline_map. by f_equal.
  - destruct cm as [l|]; [|done]. simpl in *. f_equal.
    apply Forall_fmap_ext. rewrite Forall_forall in Hcm.
    apply Forall_forall. intros [x|] Hin; [|done]. simpl. f_equal.
    specialize (Hcm _ Hin). simpl in Hcm.
    rewrite !Forall_cons in Hcm. destruct Hcm as (? & ? & _).
    unfold Commit_map. by f_equal.
Qed.

Lemma timelineUsers_map {U M U' M'} (fu : U → U') (fm : M → M')
    (tl : slice (option (Timeline.t U M))) :
  concat (timelineUsers <$> sliceList
            (fmap (M := list) (fmap (M := option) (Timeline_map fu fm)) <$> tl))
  = fu <$> concat (timelineUsers <$> sliceList tl).
Proof.
  destruct tl as [l|]; [|done]. simpl.
  induction l as [|[t|] l IH]; [done|simpl; repeat f_equal; exact IH|exact IH].
Qed.

Lemma timelineMilestones_map {U M U' M'} (fu : U → U') (fm : M → M')
    (tl : slice (option (Timeline.t U M))) :
  concat (timelineMilestones <$> sliceList
            (fmap (M := list) (fmap (M := option) (Timeline_map fu fm)) <$> tl))
  = fm <$> concat (timelineMilestones <$> sliceList tl).
Proof.
  destruct tl as [l|]; [|done]. simpl.
  induction l as [|[t|] l IH]; [done|simpl; repeat f_equal; exact IH|exact IH].
Qed.

Lemma commitUsers_map {U U'} (fu : U → U') (cm : slice (option (RepositoryCommit.t U))) :
  concat (commitUsers <$> sliceList
            (fmap (M := list) (fmap (M := option) (Commit_map fu)) <$> cm))
  = fu <$> concat (commitUsers <$> sliceList cm).
Proof.
  destruct cm as [l|]; [|done]. simpl.
  induction l as [|[x|] l IH]; [done|simpl; repeat f_equal; exact IH|exact IH].
Qed.

(** The references of a mapped issue are the mapped references. *)
Lemma userRefs_map {U M R U' M' R'} (fu : U → U') (fm : M → M') (fr : R → R')
    (i : Issue.t U M R) :
  userRefs (Issue_map fu fm fr i) = fu <$> userRefs i.
Proof.
  destruct i as [n ti u a c asg m r pl ca cl tl cm].
  unfold userRefs, Issue_map. cbn [Issue.User Issue.Assignee Issue.ClosedBy
    Issue.Assignees Issue.Timeline Issue.Commits].
  rewrite !fmap_app, timelineUsers_map, commitUsers_map. done.
Qed.

Lemma milestoneRefs_map {U M R U' M' R'} (fu : U → U') (fm : M → M') (fr : R → R')
    (i : Issue.t U M R) :
  milestoneRefs (Issue_map fu fm fr i) = fm <$> milestoneRefs i.
Proof.
  destruct i as [n ti u a c asg m r pl ca cl tl cm].
  unfold milestoneRefs, Issue_map. cbn [Issue.Milestone Issue.Timeline].
  by rewrite fmap_cons, timelineMilestones_map.
Qed.

Lemma repoRefs_map {U M R U' M' R'} (fu : U → U') (fm : M → M') (fr : R → R')
    (i : Issue.t U M R) :
  repoRefs (Issue_map fu fm fr i) = fr <$> repoRefs i.
Proof. by destruct i. Qed.

Lemma issueIs_le h h1 v i : heap_le h h1 → issueIs h v i → issueIs h1 v i.
Proof.
  intros Hle (Hv & Hu & Hm & Hr).
  assert (Forall (stable userAt h1) (userRefs i)
          ∧ Forall (λ r, userAt h1 r = userAt h r) (userRefs i)) as [Hu1 Hu2].
  { split; (eapply Forall_impl; [exact Hu|]); intros r Hs;
      by destruct (stable_le _ _ _ _ Hle Hs). }
  assert (Forall (stable milestoneAt h1) (milestoneRefs i)
          ∧ Forall (λ r, milestoneAt h1 r = milestoneAt h r) (milestoneRefs i))
    as [Hm1 Hm2].
  { split; (eapply Forall_impl; [exact Hm|]); intros r Hs;
      by destruct (stable_le _ _ _ _ Hle Hs). }
  assert (Forall (stable repoAt h1) (repoRefs i)
          ∧ Forall (λ r, repoAt h1 r = repoAt h r) (repoRefs i)) as [Hr1 Hr2].
  { split; (eapply Forall_impl; [exact Hr|]); intros r Hs;
      by destruct (stable_le _ _ _ _ Hle Hs). }
  split_and!; try done. rewrite <-Hv. unfold marshalIssue.
  by apply Issue_map_ext.
Qed.

Lemma userIs_le h h1 u r : heap_le h h1 → userIs h u r → userIs h1 u r.
Proof.
  intros Hle [<- Hs]. destruct (stable_le _ _ _ _ Hle Hs). by split.
Qed.

Lemma milestoneIs_le h h1 m r : heap_le h h1 → milestoneIs h m r → milestoneIs h1 m r.
Proof.
  intros Hle [<- Hs]. destruct (stable_le _ _ _ _ Hle Hs). by split.
Qed.

Lemma repoIs_le h h1 x r : heap_le h h1 → repoIs h x r → repoIs h1 x r.
Proof.
  intros Hle [<- Hs]. destruct (stable_le _ _ _ _ Hle Hs). by split.
Qed.

Lemma timelineIs_le h h1 v t : heap_le h h1 → timelineIs h v t → timelineIs h1 v t.
Proof.
  intros Hle (<- & Hu & Hm). destruct t as [t|]; [|by split_and!].
  simpl in *. rewrite !Forall_cons in Hu. rewrite !Forall_cons in Hm.
  destruct Hu as (Ha & Hb & _), Hm as (Hc & _).
  destruct (stable_le _ _ _ _ Hle Ha) as [? Ea].
  destruct (stable_le _ _ _ _ Hle Hb) as [? Eb].
  destruct (stable_le _ _ _ _ Hle Hc) as [? Ec].
  split_and!; [|by repeat constructor..].
  cbn. unfold Timeline_map. by rewrite Ea, Eb, Ec.
Qed.

Lemma commitIs_le h h1 v c : heap_le h h1 → commitIs h v c → commitIs h1 v c.
Proof.
  intros Hle (<- & Hu). destruct c as [c|]; [|by split_and!].
  simpl in *. rewrite !Forall_cons in Hu. destruct Hu as (Ha & Hb & _).
  destruct (stable_le _ _ _ _ Hle Ha) as [? Ea].
  destruct (stable_le _ _ _ _ Hle Hb) as [? Eb].
  split_and!; [|by repeat constructor].
  cbn. unfold Commit_map. by rewrite Ea, Eb.
Qed.

Lemma newList_spec {A B} (f : Heap → A → Heap * B) (P : Heap → A → B → Prop) :
  (∀ h a h1 b, f h a = (h1, b) → heap_le h h1 ∧ P h1 a b) →
  (∀ h h1 a b, heap_le h h1 → P h a b → P h1 a b) →
  ∀ l h h1 l', newList f h l = (h1, l') → heap_le h h1 ∧ Forall2 (P h1) l l'.
Proof.
  intros Hf Hmono. induction l as [|a l IH]; intros h h1 l'; simpl.
  - intros [= <- <-]. split; [apply heap_le_refl|constructor].
  - destruct (f h a) as [h2 b] eqn:Hb. destruct (newList f h2 l) as [h3 l3] eqn:Hl.
    intros [= <- <-]. apply Hf in Hb as [Hle1 HP]. apply IH in Hl as [Hle2 HPl].
    split; [by eapply heap_le_trans|]. constructor; eauto.
Qed.

Lemma newTimeline_spec h (ov : option TimelineJ) h1 ot :
  newOption newTimeline h ov = (h1, ot) → heap_le h h1 ∧ timelineIs h1 ov ot.
Proof.
  destruct ov as [t|]; simpl.
  2: { intros [= <- <-]. split; [apply heap_le_refl|by split_and!]. }
  unfold newTimeline.
  destruct (newUser h _) as [h2 a] eqn:Ha. destruct (newUser h2 _) as [h3 b] eqn:Hb.
  destruct (newMilestone h3 _) as [h4 m] eqn:Hm. intros [= <- <-].
  apply newUser_spec in Ha as (L1 & Ea & Sa).
  apply newUser_spec in Hb as (L2 & Eb & Sb).
  apply newMilestone_spec in Hm as (L3 & Em & Sm).
  assert (heap_le h2 h4) as L24 by (by eapply heap_le_trans).
  destruct (stable_le _ _ _ _ L24 Sa) as [Sa' Ea'].
  destruct (stable_le _ _ _ _ L3 Sb) as [Sb' Eb'].
  split; [eauto using heap_le_trans|]. split_and!; simpl.
  - unfold Timeline_map. simpl. rewrite Ea', Ea, Eb', Eb, Em. by destruct t.
  - by repeat constructor.
  - by repeat constructor.
Qed.

Lemma newCommit_spec h (ov : option CommitJ) h1 oc :
  newOption newCommit h ov = (h1, oc) → heap_le h h1 ∧ commitIs h1 ov oc.
Proof.
  destruct ov as [c|]; simpl.
  2: { intros [= <- <-]. split; [apply heap_le_refl|by split_and!]. }
  unfold newCommit.
  destruct (newUser h _) as [h2 a] eqn:Ha. destruct (newUser h2 _) as [h3 b] eqn:Hb.
  intros [= <- <-].
  apply newUser_spec in Ha as (L1 & Ea & Sa).
  apply newUser_spec in Hb as (L2 & Eb & Sb).
  destruct (stable_le _ _ _ _ L2 Sa) as [Sa' Ea'].
  split; [eauto using heap_le_trans|]. split_and!; simpl.
  - unfold Commit_map. simpl. rewrite Ea', Ea, Eb. by destruct c.
  - by repeat constructor.
Qed.

Lemma userIs_list h us rs :
  Forall2 (userIs h) us rs →
  userAt h <$> rs = us ∧ Forall (stable userAt h) rs.
Proof.
  induction 1 as [|u r us rs [<- Hs] _ [IH1 IH2]]; [done|].
  split; [by rewrite fmap_cons, IH1|by constructor].
Qed.

Lemma timelineIs_list h (vs : list (option TimelineJ)) ts :
  Forall2 (timelineIs h) vs ts →
  fmap (M := list) (fmap (M := option) (Timeline_map (userAt h) (milestoneAt h))) ts = vs
  ∧ Forall (stable userAt h) (concat (timelineUsers <$> ts))
  ∧ Forall (stable milestoneAt h) (concat (timelineMilestones <$> ts))
  ∧ (Forall is_Some vs → Forall is_Some ts).
Proof.
  induction 1 as [|v t vs ts (<- & Hu & Hm) _ (IH1 & IH2 & IH3 & IH4)];
    [by split_and!|].
  split_and!.
  - by rewrite fmap_cons, IH1.
  - simpl. by apply Forall_app.
  - simpl. by apply Forall_app.
  - intros [Hv Hvs]%Forall_cons. constructor; [|auto].
    destruct t; [done|]. by destruct Hv.
Qed.

Lemma commitIs_list h (vs : list (option CommitJ)) cs :
  Forall2 (commitIs h) vs cs →
  fmap (M := list) (fmap (M := option) (Commit_map (userAt h))) cs = vs
  ∧ Forall (stable userAt h) (concat (commitUsers <$> cs))
  ∧ (Forall is_Some vs → Forall is_Some cs).
Proof.
  induction 1 as [|v c vs cs (<- & Hu) _ (IH1 & IH2 & IH3)]; [by split_and!|].
  split_and!.
  - by rewrite fmap_cons, IH1.
  - simpl. by apply Forall_app.
  - intros [Hv Hvs]%Forall_cons. constructor; [|auto].
    destruct c; [done|]. by destruct Hv.
Qed.

(** [json.Unmarshal] of the document of an issue: memory only grows, and
    the issue obtained stands for the document. *)
Lemma unmarshalIssue_spec h v h1 i :
  unmarshalIssue h v = (h1, i) →
  heap_le h h1 ∧ issueIs h1 v i ∧ (noNil v → noNil i).
Proof.
  unfold unmarshalIssue.
  destruct (newUser h _) as [h2 u] eqn:H1.
  destruct (newUser h2 _) as [h3 a] eqn:H2.
  destruct (newUser h3 _) as [h4 c] eqn:H3.
  destruct (newList newUser h4 _) as [h5 asg] eqn:H4.
  destruct (newMilestone h5 _) as [h6 m] eqn:H5.
  destruct (newRepo h6 _) as [h7 r] eqn:H6.
  destruct (newOption (newList (newOption newTimeline)) h7 _) as [h8 tl] eqn:H7.
  destruct (newOption (newList (newOption newCommit)) h8 _) as [h9 cm] eqn:H8.
  intros [= <- <-].
  apply newUser_spec in H1 as (L1 & E1 & S1).
  apply newUser_spec in H2 as (L2 & E2 & S2).
  apply newUser_spec in H3 as (L3 & E3 & S3).
  apply (newList_spec newUser userIs) in H4 as (L4 & F4);
    [|intros ???? Hn; apply newUser_spec in Hn as (?&?&?); split; [done|by split]
     |intros; by eapply userIs_le].
  apply newMilestone_spec in H5 as (L5 & E5 & S5).
  apply newRepo_spec in H6 as (L6 & E6 & S6).
  assert (heap_le h7 h8 ∧
          ∃ vs ts, (Issue.Timeline v = None ∧ tl = None ∧ vs = [] ∧ ts = []
                    ∨ Issue.Timeline v = Some vs ∧ tl = Some ts)
                   ∧ Forall2 (timelineIs h8) vs ts) as (L7 & vs & ts & Hvs & F7).
  { destruct (Issue.Timeline v) as [l|]; simpl in H7.
    - destruct (newList _ h7 l) as [hx l'] eqn:Hl. simplify_eq.
      apply (newList_spec _ timelineIs) in Hl as [??];
        [|apply newTimeline_spec|intros; by eapply timelineIs_le].
      split; [done|]. exists l, l'. split; [by right|done].
    - simplify_eq. split; [apply heap_le_refl|]. exists [], [].
      split; [by left|constructor]. }
  assert (heap_le h8 h9 ∧
          ∃ ws cs, (Issue.Commits v = None ∧ cm = None ∧ ws = [] ∧ cs = []
                    ∨ Issue.Commits v = Some ws ∧ cm = Some cs)
                   ∧ Forall2 (commitIs h9) ws cs) as (L8 & ws & cs & Hws & F8).
  { destruct (Issue.Commits v) as [l|]; simpl in H8.
    - destruct (newList _ h8 l) as [hx l'] eqn:Hl. simplify_eq.
      apply (newList_spec _ commitIs) in Hl as [??];
        [|apply newCommit_spec|intros; by eapply commitIs_le].
      split; [done|]. exists l, l'. split; [by right|done].
    - simplify_eq. split; [apply heap_le_refl|]. exists [], [].
      split; [by left|constructor]. }
  assert (heap_le h2 h9) as M2 by eauto 10 using heap_le_trans.
  assert (heap_le h3 h9) as M3 by eauto 10 using heap_le_trans.
  assert (heap_le h4 h9) as M4 by eauto 10 using heap_le_trans.
  assert (heap_le h5 h9) as M5 by eauto 10 using heap_le_trans.
  assert (heap_le h6 h9) as M6 by eauto 10 using heap_le_trans.
  assert (heap_le h7 h9) as M7 by eauto 10 using heap_le_trans.
  destruct (userIs_le _ _ _ _ M2 (conj E1 S1)) as [E1' S1'].
  destruct (userIs_le _ _ _ _ M3 (conj E2 S2)) as [E2' S2'].
  destruct (userIs_le _ _ _ _ M4 (conj E3 S3)) as [E3' S3'].
  assert (Forall2 (userIs h9) (Issue.Assignees v) asg) as F4'.
  { eapply Forall2_impl; [exact F4|]. intros. by apply (userIs_le h5). }
  apply userIs_list in F4' as [E4' S4'].
  destruct (milestoneIs_le _ _ _ _ M6 (conj E5 S5)) as [E5' S5'].
  destruct (repoIs_le _ _ _ _ M7 (conj E6 S6)) as [E6' S6'].
  assert (Forall2 (timelineIs h9) vs ts) as F7'.
  { eapply Forall2_impl; [exact F7|]. intros. by apply (timelineIs_le h8). }
  apply timelineIs_list in F7' as (E7 & Su7 & Sm7 & N7).
  apply commitIs_list in F8 as (E8 & Su8 & N8).
  assert (sliceList tl = ts ∧ sliceList cm = cs
          ∧ sliceList (Issue.Timeline v) = vs ∧ sliceList (Issue.Commits v) = ws)
    as (Etl & Ecm & Evs & Ews).
  { destruct Hvs as [(-> & -> & -> & ->)|[-> ->]],
      Hws as [(-> & -> & -> & ->)|[-> ->]]; by split_and!. }
  split; [eauto 10 using heap_le_trans|]. split; [split_and!|].
  - unfold marshalIssue, Issue_map. simpl.
    rewrite E1', E2', E3', E4', E5', E6'.
    destruct v as [n ti vu va vc vasg vm vr pl ca cl vtl vcm]. simpl in *.
    f_equal.
    + destruct Hvs as [(-> & -> & -> & ->)|[-> ->]]; simpl; [done|by f_equal].
    + destruct Hws as [(-> & -> & -> & ->)|[-> ->]]; simpl; [done|by f_equal].
  - unfold userRefs. simpl. rewrite Etl, Ecm.
    repeat apply Forall_cons_2; try done. by repeat apply Forall_app_2.
  - unfold milestoneRefs. simpl. rewrite Etl. by apply Forall_cons_2.
  - unfold repoRefs. simpl. by repeat constructor.
  - intros [Hn1 Hn2]. rewrite Evs in Hn1. rewrite Ews in Hn2.
    split; simpl; [rewrite Etl; auto|rewrite Ecm; auto].
Qed.

(** ** Interning keeps the values *)

Lemma internRef_ext (f g : ptr → Z) m r : f r = g r → internRef f m r = internRef g m r.
Proof. intros H. unfold internRef. by rewrite H. Qed.

Section RefValues.
  Context {V : Type} (val : Heap → ptr → V) (idOf : V → Z) (cv : Z → V).
  Variable h : Heap.
  Hypothesis val_nil : idOf (val h None) = 0.

Lemma internRef_val getID m r :
  getID r = idOf (val h r) →
  tableOK val idOf cv h m → refReady val idOf cv h r →
  tableOK val idOf cv h (internRef getID m r).1
  ∧ stable val h (internRef getID m r).2
  ∧ val h (internRef getID m r).2 = val h r.
Proof.
  intros Hid Hm [Hs Hv]. unfold internRef. rewrite Hid.
  case_decide as Hne; [|by split_and!].
  specialize (Hv Hne).
  destruct (mapGet m (idOf (val h r))) as [e|] eqn:Hget; simpl.
  - unfold mapGet in Hget.
    destruct (m !! idOf (val h r)) as [[e'|]|] eqn:Hl; simplify_eq/=.
    destruct (Hm _ _ Hl) as (? & ? & ?). split_and!; [done|done|congruence].
  - split_and!; [|done|done]. intros k e Hk.
    destruct (decide (idOf (val h r) = k)) as [<-|Hk'].
    + rewrite lookup_insert_eq in Hk. simplify_eq.
      split_and!; [done|done|by rewrite <-Hv].
    + rewrite lookup_insert_ne in Hk by done. by apply Hm.
Qed.

End RefValues.

Lemma User_GetID_at h r : User_GetID h r = userID (userAt h r).
Proof. destruct r as [l|]; [|done]. simpl. by destruct (userObjs h !! l). Qed.

Lemma Milestone_GetID_at h r : Milestone_GetID h r = milestoneID (milestoneAt h r).
Proof. destruct r as [l|]; [|done]. simpl. by destruct (milestoneObjs h !! l). Qed.

Lemma Repository_GetID_at h r : Repository_GetID h r = repoID (repoAt h r).
Proof. destruct r as [l|]; [|done]. simpl. by destruct (repoObjs h !! l). Qed.

Section KeepValues.
  Variable cvU : Z → option User.t.
  Variable cvM : Z → option Milestone.t.
  Variable cvR : Z → option Repository.t.
  Variable h : Heap.

Lemma internUser_val p u p' u' :
  storeOK cvU cvM cvR h p → refReady userAt userID cvU h u →
  internUser h p u = (p', u') →
  storeOK cvU cvM cvR h p' ∧ userIs h (userAt h u) u'.
Proof.
  intros (Hu & Hm & Hr) Hready. rewrite internUser_ref. intros [= <- <-].
  destruct (internRef_val userAt userID cvU h (User_GetID h) (Project.users p) u)
    as (? & ? & ?); [apply User_GetID_at|done..|].
  split; [by split_and!|by split].
Qed.

Lemma internMilestone_val p m p' m' :
  storeOK cvU cvM cvR h p → refReady milestoneAt milestoneID cvM h m →
  internMilestone h p m = (p', m') →
  storeOK cvU cvM cvR h p' ∧ milestoneIs h (milestoneAt h m) m'.
Proof.
  intros (Hu & Hm & Hr) Hready. rewrite internMilestone_ref. intros [= <- <-].
  destruct (internRef_val milestoneAt milestoneID cvM h (Milestone_GetID h)
              (Project.milestones p) m)
    as (? & ? & ?); [apply Milestone_GetID_at|done..|].
  split; [by split_and!|by split].
Qed.

Lemma internRepo_val p r p' r' :
  storeOK cvU cvM cvR h p → refReady repoAt repoID cvR h r →
  internRepo h p r = (p', r') →
  storeOK cvU cvM cvR h p' ∧ repoIs h (repoAt h r) r'.
Proof.
  intros (Hu & Hm & Hr) Hready. rewrite internRepo_ref. intros [= <- <-].
  destruct (internRef_val repoAt repoID cvR h (Repository_GetID h)
              (Project.repos p) r)
    as (? & ? & ?); [apply Repository_GetID_at|done..|].
  split; [by split_and!|by split].
Qed.

Lemma internUsers_val us : ∀ p p' us',
  storeOK cvU cvM cvR h p → Forall (refReady userAt userID cvU h) us →
  internUsers h p us = (p', us') →
  storeOK cvU cvM cvR h p' ∧ Forall2 (userIs h) (userAt h <$> us) us'.
Proof.
  induction us as [|u us IH]; intros p p' us' Hok Hready; simpl.
  - intros [= <- <-]. split; [done|constructor].
  - apply Forall_cons in Hready as [Hu Hus].
    destruct (internUser h p u) as [p1 u1] eqn:H1.
    destruct (internUsers h p1 us) as [p2 us2] eqn:H2. intros [= <- <-].
    apply internUser_val in H1 as [Hok1 Hu1]; [|done..].
    apply IH in H2 as [Hok2 Hus2]; [|done..].
    split; [done|]. by constructor.
Qed.

Lemma internTimeline_val ts : ∀ p,
  storeOK cvU cvM cvR h p → Forall is_Some ts →
  Forall (refReady userAt userID cvU h) (concat (timelineUsers <$> ts)) →
  Forall (refReady milestoneAt milestoneID cvM h) (concat (timelineMilestones <$> ts)) →
  ∃ p' ts', internTimeline h p ts = Some (p', ts')
    ∧ storeOK cvU cvM cvR h p'
    ∧ Forall2 (timelineIs h)
        (fmap (M := option) (Timeline_map (userAt h) (milestoneAt h)) <$> ts) ts'.
Proof.
  induction ts as [|[t|] ts IH]; intros p Hok Hn Hu Hm.
  - exists p, []. split_and!; [done|done|constructor].
  - apply Forall_cons in Hn as [_ Hn]. simpl in Hu, Hm.
    rewrite !Forall_cons in Hu. rewrite !Forall_cons in Hm.
    destruct Hu as (Ha & Hb & Hu), Hm as (Hc & Hm). simpl.
    destruct (internUser h p _) as [p1 a] eqn:H1.
    destruct (internUser h p1 _) as [p2 b] eqn:H2.
    destruct (internMilestone h p2 _) as [p3 m] eqn:H3.
    apply internUser_val in H1 as [Hok1 [Ea Sa]]; [|done..].
    apply internUser_val in H2 as [Hok2 [Eb Sb]]; [|done..].
    apply internMilestone_val in H3 as [Hok3 [Ec Sc]]; [|done..].
    destruct (IH p3) as (p4 & ts4 & -> & Hok4 & Hts4); [done..|].
    simpl. eexists _, _. split_and!; [done|done|].
    constructor; [|done]. split_and!; simpl.
    + unfold Timeline_map. simpl. by rewrite Ea, Eb, Ec.
    + by repeat constructor.
    + by repeat constructor.
  - apply Forall_cons in Hn as [[? Hx] _]. done.
Qed.

Lemma internCommits_val cs : ∀ p,
  storeOK cvU cvM cvR h p → Forall is_Some cs →
  Forall (refReady userAt userID cvU h) (concat (commitUsers <$> cs)) →
  ∃ p' cs', internCommits h p cs = Some (p', cs')
    ∧ storeOK cvU cvM cvR h p'
    ∧ Forall2 (commitIs h) (fmap (M := option) (Commit_map (userAt h)) <$> cs) cs'.
Proof.
  induction cs as [|[c|] cs IH]; intros p Hok Hn Hu.
  - exists p, []. split_and!; [done|done|constructor].
  - apply Forall_cons in Hn as [_ Hn]. simpl in Hu.
    rewrite !Forall_cons in Hu. destruct Hu as (Ha & Hb & Hu). simpl.
    destruct (internUser h p _) as [p1 a] eqn:H1.
    destruct (internUser h p1 _) as [p2 b] eqn:H2.
    apply internUser_val in H1 as [Hok1 [Ea Sa]]; [|done..].
    apply internUser_val in H2 as [Hok2 [Eb Sb]]; [|done..].
    destruct (IH p2) as (p3 & cs3 & -> & Hok3 & Hcs3); [done..|].
    simpl. eexists _, _. split_and!; [done|done|].
    constructor; [|done]. split_and!; simpl.
    + unfold Commit_map. simpl. by rewrite Ea, Eb.
    + by repeat constructor.
  - apply Forall_cons in Hn as [[? Hx] _]. done.
Qed.

End KeepValues.

(** Interning an issue whose references are settled on the values of the
    store does not panic, keeps the store settled, and yields an issue that
    stands for the same document. *)
Lemma internIssue_val cvU cvM cvR h p i :
  storeOK cvU cvM cvR h p → issueReady cvU cvM cvR h i → noNil i →
  ∃ p' i', internIssue h p i = Some (p', i')
    ∧ storeOK cvU cvM cvR h p'
    ∧ issueIs h (marshalIssue h i) i'.
Proof.
  intros Hok (Hu & Hm & Hr) [Hnt Hnc]. unfold internIssue.
  unfold userRefs in Hu. unfold milestoneRefs in Hm. unfold repoRefs in Hr.
  simpl in Hu. rewrite !Forall_cons, !Forall_app in Hu.
  destruct Hu as (Hu1 & Hu2 & Hu3 & Hu4 & Hu5 & Hu6).
  apply Forall_cons in Hm as [Hm1 Hm2]. apply Forall_cons in Hr as [Hr1 _].
  destruct (internUser h p _) as [p1 u] eqn:H1.
  destruct (internUser h p1 _) as [p2 a] eqn:H2.
  destruct (internUser h p2 _) as [p3 c] eqn:H3.
  destruct (internUsers h p3 _) as [p4 asg] eqn:H4.
  destruct (internMilestone h p4 _) as [p5 m] eqn:H5.
  destruct (internRepo h p5 _) as [p6 r] eqn:H6.
  apply (internUser_val cvU cvM cvR) in H1 as [Hok1 [E1 S1]]; [|done..].
  apply (internUser_val cvU cvM cvR) in H2 as [Hok2 [E2 S2]]; [|done..].
  apply (internUser_val cvU cvM cvR) in H3 as [Hok3 [E3 S3]]; [|done..].
  apply (internUsers_val cvU cvM cvR) in H4 as [Hok4 F4]; [|done..].
  apply userIs_list in F4 as [E4 S4].
  apply (internMilestone_val cvU cvM cvR) in H5 as [Hok5 [E5 S5]]; [|done..].
  apply (internRepo_val cvU cvM cvR) in H6 as [Hok6 [E6 S6]]; [|done..].
  assert (∃ p7 tl, overSlice (internTimeline h) p6 (Issue.Timeline i) = Some (p7, tl)
      ∧ storeOK cvU cvM cvR h p7
      ∧ fmap (M := list) (fmap (M := option)
               (Timeline_map (userAt h) (milestoneAt h))) <$> tl
        = fmap (M := list) (fmap (M := option)
               (Timeline_map (userAt h) (milestoneAt h))) <$> Issue.Timeline i
      ∧ Forall (stable userAt h) (concat (timelineUsers <$> sliceList tl))
      ∧ Forall (stable milestoneAt h) (concat (timelineMilestones <$> sliceList tl)))
    as (p7 & tl & -> & Hok7 & E7 & Su7 & Sm7).
  { destruct (Issue.Timeline i) as [l|]; simpl in *.
    - destruct (internTimeline_val cvU cvM cvR h l p6)
        as (p7 & l' & -> & ? & F7); [done..|].
      apply timelineIs_list in F7 as (E & ? & ? & _).
      exists p7, (Some l'). simpl. split_and!; try done. by rewrite E.
    - exists p6, None. by split_and!. }
  simpl.
  assert (∃ p8 cm, overSlice (internCommits h) p7 (Issue.Commits i) = Some (p8, cm)
      ∧ storeOK cvU cvM cvR h p8
      ∧ fmap (M := list) (fmap (M := option) (Commit_map (userAt h))) <$> cm
        = fmap (M := list) (fmap (M := option) (Commit_map (userAt h)))
            <$> Issue.Commits i
      ∧ Forall (stable userAt h) (concat (commitUsers <$> sliceList cm)))
    as (p8 & cm & -> & Hok8 & E8 & Su8).
  { destruct (Issue.Commits i) as [l|]; simpl in *.
    - destruct (internCommits_val cvU cvM cvR h l p7)
        as (p8 & l' & -> & ? & F8); [done..|].
      apply commitIs_list in F8 as (E & ? & _).
      exists p8, (Some l'). simpl. split_and!; try done. by rewrite E.
    - exists p7, None. by split_and!. }
  simpl. eexists _, _. split; [done|]. split; [done|].
  split_and!.
  - unfold marshalIssue, Issue_map. simpl.
    by rewrite E1, E2, E3, E4, E5, E6, E7, E8.
  - unfold userRefs. simpl.
    repeat apply Forall_cons_2; try done. by repeat apply Forall_app_2.
  - unfold milestoneRefs. simpl. by apply Forall_cons_2.
  - unfold repoRefs. simpl. by repeat constructor.
Qed.

(** ** [Atoi] reads back what [%d] prints *)

Lemma digitOf_digitChar d : 0 ≤ d ≤ 9 → digitOf (digitChar d) = Some d.
Proof.
  intros Hd.
  assert (d = 0 ∨ d = 1 ∨ d = 2 ∨ d = 3 ∨ d = 4 ∨ d = 5 ∨ d = 6 ∨ d = 7
          ∨ d = 8 ∨ d = 9) as Hcases by lia.
  repeat (destruct Hcases as [->|Hcases]; [done|]). by subst.
Qed.

Lemma fmtUint_cons fuel : ∀ u buf, ∃ c s, fmtUint (S fuel) u buf = String c s.
Proof.
  induction fuel as [|fuel IH]; intros u buf; simpl.
  - case_decide; eauto.
  - case_decide; [|eauto]. apply (IH (u `div` 10)).
Qed.

Lemma atoiLoop_fmtUint fuel : ∀ u buf,
  0 ≤ u < 10 ^ Z.of_nat fuel →
  atoiLoop (fmtUint fuel u buf) 0 = atoiLoop buf u.
Proof.
  induction fuel as [|fuel IH]; intros u buf Hu.
  - simpl in *. by replace u with 0 by lia.
  - rewrite Nat2Z.inj_succ, Z.pow_succ_r in Hu by lia. simpl. case_decide as H10.
    + rewrite IH by (split; [apply Z.div_pos; lia|apply Z.div_lt_upper_bound; lia]).
      simpl. rewrite digitOf_digitChar by (pose proof (Z.mod_pos_bound u 10); lia).
      f_equal. pose proof (Z.div_mod u 10). lia.
    + simpl. rewrite digitOf_digitChar by lia. f_equal.
Qed.

Lemma parseUintLoop_fmtUint fuel : ∀ u buf,
  0 ≤ u < 10 ^ Z.of_nat fuel → u ≤ maxUint64 →
  parseUintLoop (fmtUint fuel u buf) 0 = parseUintLoop buf u.
Proof.
  assert (∀ n d buf, 0 ≤ n → 0 ≤ d ≤ 9 → n * 10 + d ≤ maxUint64 →
    parseUintLoop (String (digitChar d) buf) n = parseUintLoop buf (n * 10 + d))
    as Hstep.
  { intros n d buf Hn Hd Hmax. simpl. rewrite digitOf_digitChar by done.
    rewrite maxUint64_val in *.
    change (18446744073709551615 `div` 10 + 1) with 1844674407370955162.
    change (2 ^ 64) with 18446744073709551616.
    rewrite decide_False by lia. rewrite Z.mod_small by lia.
    by rewrite decide_False by lia. }
  induction fuel as [|fuel IH]; intros u buf Hu Hmax.
  - simpl in *. by replace u with 0 by lia.
  - rewrite Nat2Z.inj_succ, Z.pow_succ_r in Hu by lia. simpl. case_decide as H10.
    + pose proof (Z.div_mod u 10). pose proof (Z.mod_pos_bound u 10).
      assert (0 ≤ u `div` 10) by (apply Z.div_pos; lia).
      rewrite IH by (try split; try done; try (apply Z.div_lt_upper_bound; lia); lia).
      rewrite Hstep by lia. f_equal. lia.
    + rewrite <-(Z.add_0_l u) at 2. change 0 with (0 * 10) at 2.
      apply Hstep; lia.
Qed.

Lemma toInt64_small z : - 2 ^ 63 ≤ z < 2 ^ 63 → toInt64 z = z.
Proof.
  intros Hz. unfold toInt64.
  change (2 ^ 63) with 9223372036854775808 in *.
  change (2 ^ 64) with 18446744073709551616.
  rewrite Z.mod_small by lia. lia.
Qed.

(** [strconv.Atoi] of the decimal notation of an [int] is that [int],
    without error. *)
Lemma Atoi_Sprintf_d k : - 2 ^ 63 ≤ k < 2 ^ 63 → Atoi (Sprintf_d k) = (k, None).
Proof.
  intros Hk. pose proof Hk as Hk'.
  change (2 ^ 63) with 9223372036854775808 in Hk'.
  assert (10 ^ Z.of_nat 20 = 100000000000000000000) as H20 by done.
  unfold Sprintf_d. case_decide as Hneg.
  - destruct (fmtUint_cons 19 (- k) EmptyString) as (c & s & Hbody).
    pose proof (atoiLoop_fmtUint 20 (- k) EmptyString) as Hfast.
    pose proof (parseUintLoop_fmtUint 20 (- k) EmptyString) as Hslow.
    rewrite Hbody in *. unfold Atoi. case_decide as Hlen.
    + rewrite bool_decide_eq_true_2 by (by left).
      rewrite bool_decide_eq_false_2 by (simpl; lia). simpl andb. cbv iota.
      rewrite Hfast by lia. cbn [atoiLoop]. case_decide; [|done].
      f_equal. lia.
    + unfold ParseInt. rewrite decide_False by done. rewrite decide_True by done.
      unfold ParseUint. rewrite Hslow by (rewrite ?maxUint64_val; lia).
      simpl parseUintLoop. cbv beta iota zeta.
      change (2 ^ 63) with 9223372036854775808.
      rewrite decide_False by (by intros [? _]).
      rewrite decide_False by lia. f_equal.
      destruct (decide (k = - 9223372036854775808)) as [->|]; [done|].
      rewrite (toInt64_small (- k)) by (change (2 ^ 63) with 9223372036854775808; lia).
      rewrite toInt64_small by (change (2 ^ 63) with 9223372036854775808; lia).
      lia.
  - destruct (fmtUint_cons 19 k EmptyString) as (c & s & Hbody).
    pose proof (atoiLoop_fmtUint 20 k EmptyString) as Hfast.
    pose proof (parseUintLoop_fmtUint 20 k EmptyString) as Hslow.
    rewrite Hbody in *.
    specialize (Hfast ltac:(lia)).
    assert (∃ d, digitOf c = Some d) as [d Hd].
    { pose proof Hfast as Hc. simpl in Hc. destruct (digitOf c); [eauto|done]. }
    destruct (digitOf_not_sign _ _ Hd) as [Hplus Hminus].
    unfold Atoi. case_decide as Hlen.
    + rewrite bool_decide_eq_false_2 by (intros [?|?]; done). simpl andb. cbv iota.
      rewrite Hfast. cbn [atoiLoop]. by rewrite decide_False by done.
    + unfold ParseInt. rewrite !decide_False by done.
      unfold ParseUint. rewrite Hslow by (rewrite ?maxUint64_val; lia).
      simpl parseUintLoop. cbv beta iota zeta.
      change (2 ^ 63) with 9223372036854775808.
      rewrite decide_False by lia.
      rewrite decide_False by (by intros [? _]).
      by rewrite toInt64_small by (change (2 ^ 63) with 9223372036854775808; lia).
Qed.

Lemma Sprintf_d_inj k1 k2 :
  - 2 ^ 63 ≤ k1 < 2 ^ 63 → - 2 ^ 63 ≤ k2 < 2 ^ 63 →
  Sprintf_d k1 = Sprintf_d k2 → k1 = k2.
Proof.
  intros H1 H2 Heq. apply Atoi_Sprintf_d in H1, H2. rewrite Heq in H1. congruence.
Qed.

(** ** What [persist] leaves in the cache directory *)

Lemma Sprintf_d_not_meta k : - 2 ^ 63 ≤ k < 2 ^ 63 → Sprintf_d k ≠ "meta".
Proof.
  intros Hk Heq. apply Atoi_Sprintf_d in Hk. rewrite Heq in Hk. by vm_compute in Hk.
Qed.

Lemma saveAll_spec h (l : list (Z * IssueP)) : ∀ d : Disk,
  NoDup l.*1 →
  (∀ k i, (k, i) ∈ l → Issue.Number i = Some k ∧ - 2 ^ 63 ≤ k < 2 ^ 63) →
  (∀ name, d !! name ≠ Some Dir) →
  ∃ d' : Disk, saveAll h d l.*2 = Ok d'
    ∧ (∀ name, d' !! name ≠ Some Dir)
    ∧ (∀ k i, (k, i) ∈ l → d' !! Sprintf_d k = Some (IssueDoc (marshalIssue h i)))
    ∧ (∀ name, (∀ k i, (k, i) ∈ l → name ≠ Sprintf_d k) → d' !! name = d !! name).
Proof.
  induction l as [|[k0 i0] l IH]; intros d Hnd Hl Hdir.
  - exists d. split_and!; try done. by intros ?? ?%elem_of_nil.
  - rewrite fmap_cons in Hnd. apply NoDup_cons in Hnd as [Hk0 Hnd].
    destruct (Hl k0 i0) as [Hn0 Hr0]; [by left|].
    assert (∀ name, (<[Sprintf_d k0 := IssueDoc (marshalIssue h i0)]> d : Disk)
                    !! name ≠ Some Dir) as Hdir1.
    { intros name. destruct (decide (Sprintf_d k0 = name)) as [<-|?].
      - by rewrite lookup_insert_eq.
      - by rewrite lookup_insert_ne. }
    destruct (IH (<[Sprintf_d k0 := IssueDoc (marshalIssue h i0)]> d) Hnd)
      as (d' & Hsave & Hdir' & Hin & Hout);
      [intros; apply Hl; by right|exact Hdir1|].
    exists d'. split_and!; [|done| |].
    + simpl. unfold Issue_save, saveJSON, WriteFile. rewrite Hn0.
      assert (d !! Sprintf_d k0 ≠ Some Dir) as Hd0 by apply Hdir.
      destruct (d !! Sprintf_d k0) as [[| | |]|]; try done.
    + intros k i [Heq|Hki]%elem_of_cons; [|by apply Hin].
      simplify_eq. rewrite Hout; [by rewrite lookup_insert_eq|].
      intros k i' Hki' Heq. destruct (Hl k i') as [_ Hr]; [by right|].
      apply Sprintf_d_inj in Heq; [|done..]. subst k.
      apply Hk0. apply list_elem_of_fmap. by exists (k0, i').
    + intros name Hname.
      rewrite Hout by (intros k i Hki; apply (Hname k i); by right).
      rewrite lookup_insert_ne; [done|]. intros Heq.
      by apply (Hname k0 i0); [left|].
Qed.

Lemma persist_spec h p :
  (∀ k i, Project.issues p !! k = Some i →
          Issue.Number i = Some k ∧ - 2 ^ 63 ≤ k < 2 ^ 63) →
  ∃ d : Disk, persist h ∅ p = Ok d
    ∧ d !! "meta" = Some (MetaDoc (Project.Owner p) (Project.Repo p)
                            (Project.RefreshedAt p))
    ∧ (∀ k i, Project.issues p !! k = Some i →
         d !! Sprintf_d k = Some (IssueDoc (marshalIssue h i)))
    ∧ (∀ name, is_Some (d !! name) →
         name = "meta" ∨ ∃ k i, Project.issues p !! k = Some i ∧ name = Sprintf_d k).
Proof.
  intros Hp. unfold persist, Project_save, saveJSON, WriteFile.
  rewrite lookup_empty. simpl.
  destruct (saveAll_spec h (map_to_list (Project.issues p))
              (<["meta" := MetaDoc (Project.Owner p) (Project.Repo p)
                             (Project.RefreshedAt p)]> ∅))
    as (d & Hsave & _ & Hin & Hout).
  - apply NoDup_fst_map_to_list.
  - intros k i Hki. apply Hp. by apply elem_of_map_to_list.
  - intros name. destruct (decide ("meta" = name)) as [<-|?].
    + by rewrite lookup_insert_eq.
    + by rewrite lookup_insert_ne, lookup_empty.
  - exists d. split_and!; [done| | |].
    + rewrite Hout; [by rewrite lookup_insert_eq|].
      intros k i Hki%elem_of_map_to_list Heq. destruct (Hp _ _ Hki) as [_ Hr].
      by apply Sprintf_d_not_meta in Hr.
    + intros k i Hki. apply Hin. by apply elem_of_map_to_list.
    + intros name Hsome.
      destruct (decide (name ∈ (λ ki, Sprintf_d ki.1) <$> map_to_list (Project.issues p)))
        as [Hel|Hnel].
      * apply list_elem_of_fmap in Hel as ([k i] & -> & Hki).
        right. exists k, i. split; [by apply elem_of_map_to_list|done].
      * left. rewrite Hout in Hsome.
        -- destruct (decide ("meta" = name)) as [<-|?]; [done|].
           rewrite lookup_insert_ne, lookup_empty in Hsome by done.
           by destruct Hsome.
        -- intros k i Hki ->. apply Hnel. apply list_elem_of_fmap. by exists (k, i).
Qed.

Lemma ReadDir_elem (d : Disk) name : name ∈ ReadDir d ↔ is_Some (d !! name).
Proof.
  unfold ReadDir. rewrite merge_sort_Permutation, list_elem_of_fmap. split.
  - intros ([n c] & -> & Hin). apply elem_of_map_to_list in Hin. by eexists.
  - intros [c Hc]. exists (name, c). split; [done|]. by apply elem_of_map_to_list.
Qed.

Lemma ReadDir_NoDup (d : Disk) : NoDup (ReadDir d).
Proof.
  unfold ReadDir. rewrite merge_sort_Permutation. apply NoDup_fst_map_to_list.
Qed.

(** ** Loading what was saved *)

Lemma noNil_map {U M R U' M' R'} (fu : U → U') (fm : M → M') (fr : R → R')
    (i : Issue.t U M R) :
  noNil i → noNil (Issue_map fu fm fr i).
Proof.
  destruct i as [n ti u a c asg m r pl ca cl tl cm]. unfold noNil. simpl.
  intros [Ht Hc]. split.
  - destruct tl as [l|]; simpl in *; [|constructor].
    apply Forall_fmap. eapply Forall_impl; [exact Ht|].
    intros ? [? ->]. by eexists.
  - destruct cm as [l|]; simpl in *; [|constructor].
    apply Forall_fmap. eapply Forall_impl; [exact Hc|].
    intros ? [? ->]. by eexists.
Qed.

Lemma tableOK_le {V} (val : Heap → ptr → V) idOf cv h h1 m :
  heap_le h h1 → tableOK val idOf cv h m → tableOK val idOf cv h1 m.
Proof.
  intros Hle Hm k e Hk. destruct (Hm _ _ Hk) as (Hs & Hv & Hid).
  destruct (stable_le _ _ _ _ Hle Hs) as [Hs1 Hv1].
  split_and!; [done|congruence|done].
Qed.

Lemma storeOK_le cvU cvM cvR h h1 p :
  heap_le h h1 → storeOK cvU cvM cvR h p → storeOK cvU cvM cvR h1 p.
Proof. intros Hle (?&?&?). split_and!; by eapply tableOK_le. Qed.

(** In an interned issue, the value of a reference with a set ID is the
    value that the store gives to the ID. *)
Lemma issueCanon_values h p i :
  issueCanon h p i →
  Forall (λ u, userID u ≠ 0 → u = canonUser h p (userID u)) (userAt h <$> userRefs i)
  ∧ Forall (λ m, milestoneID m ≠ 0 → m = canonMilestone h p (milestoneID m))
      (milestoneAt h <$> milestoneRefs i)
  ∧ Forall (λ r, repoID r ≠ 0 → r = canonRepo h p (repoID r))
      (repoAt h <$> repoRefs i).
Proof.
  intros (Hu & Hm & Hr). split_and!; apply Forall_fmap;
    (eapply Forall_impl; [eassumption|]); intros r Hc; simpl; intros Hid.
  - unfold canonUser, mapGet. rewrite <-User_GetID_at in *.
    by rewrite (Hc Hid).
  - unfold canonMilestone, mapGet. rewrite <-Milestone_GetID_at in *.
    by rewrite (Hc Hid).
  - unfold canonRepo, mapGet. rewrite <-Repository_GetID_at in *.
    by rewrite (Hc Hid).
Qed.

(** An issue read from the document of an interned issue is ready to be
    interned in what [load] has built. *)
Lemma unmarshalled_ready h p i h1 i0 :
  issueCanon h p i → issueIs h1 (marshalIssue h i) i0 →
  issueReady (canonUser h p) (canonMilestone h p) (canonRepo h p) h1 i0.
Proof.
  intros Hc (Hv & Su & Sm & Sr).
  destruct (issueCanon_values _ _ _ Hc) as (Vu & Vm & Vr).
  assert (userAt h1 <$> userRefs i0 = userAt h <$> userRefs i) as Eu.
  { unfold marshalIssue in Hv.
    rewrite <-(userRefs_map _ (milestoneAt h1) (repoAt h1)).
    rewrite <-(userRefs_map _ (milestoneAt h) (repoAt h)). by rewrite Hv. }
  assert (milestoneAt h1 <$> milestoneRefs i0 = milestoneAt h <$> milestoneRefs i) as Em.
  { unfold marshalIssue in Hv.
    rewrite <-(milestoneRefs_map (userAt h1) _ (repoAt h1)).
    rewrite <-(milestoneRefs_map (userAt h) _ (repoAt h)). by rewrite Hv. }
  assert (repoAt h1 <$> repoRefs i0 = repoAt h <$> repoRefs i) as Er.
  { unfold marshalIssue in Hv.
    rewrite <-(repoRefs_map (userAt h1) (milestoneAt h1)).
    rewrite <-(repoRefs_map (userAt h) (milestoneAt h)). by rewrite Hv. }
  rewrite <-Eu in Vu. rewrite <-Em in Vm. rewrite <-Er in Vr.
  rewrite Forall_fmap in Vu. rewrite Forall_fmap in Vm. rewrite Forall_fmap in Vr.
  split_and!; apply Forall_forall; intros r Hin; (split; [by eapply Forall_forall|]).
  - by apply (proj1 (Forall_forall _ _) Vu r Hin).
  - by apply (proj1 (Forall_forall _ _) Vm r Hin).
  - by apply (proj1 (Forall_forall _ _) Vr r Hin).
Qed.

Lemma marshalIssue_Number h i : Issue.Number (marshalIssue h i) = Issue.Number i.
Proof. by destruct i. Qed.

(** One file of a saved store, read into what [load] has built. *)
Lemma ingest_roundtrip h p (d : Disk) h' p' k i :
  store_wf h p → storeInterned h p → loaded h p h' p' →
  Project.issues p !! k = Some i →
  d !! Sprintf_d k = Some (IssueDoc (marshalIssue h i)) →
  ∃ h1 p1 i1, ingest h' d p' (Sprintf_d k) = Ok (h1, p1)
    ∧ loaded h p h1 p1
    ∧ Project.issues p1 = <[k := i1]> (Project.issues p')
    ∧ Project.Owner p1 = Project.Owner p'
    ∧ Project.Repo p1 = Project.Repo p'
    ∧ Project.RefreshedAt p1 = Project.RefreshedAt p'.
Proof.
  intros Hwf Hint [Hok Hiss] Hk Hd.
  destruct (Hint _ _ Hk) as (Hnum & _ & _ & Hfix).
  apply internIssue_spec in Hfix as (_ & _ & Hcanon & Hnil); [|done].
  unfold ingest, loadJSON_Issue. rewrite Hd. simpl.
  destruct (unmarshalIssue h' (marshalIssue h i)) as [h1 i0] eqn:Hu. simpl.
  pose proof (unmarshalIssue_Number h' (marshalIssue h i)) as Hn0.
  rewrite Hu, marshalIssue_Number, Hnum in Hn0. simpl in Hn0.
  apply unmarshalIssue_spec in Hu as (Hle & His & Hnil0).
  specialize (Hnil0 (noNil_map _ _ _ _ Hnil)).
  pose proof (storeOK_le _ _ _ _ _ _ Hle Hok) as Hok1.
  pose proof (unmarshalled_ready _ _ _ _ _ Hcanon His) as Hready.
  destruct (internIssue_val _ _ _ _ _ _ Hok1 Hready Hnil0)
    as (p2 & i2 & Hi2 & Hok2 & His2).
  rewrite Hi2. simpl.
  rewrite (internIssue_Number _ _ _ _ _ Hi2), Hn0.
  destruct His as (Hv & _). rewrite Hv in His2.
  destruct (internIssue_le _ _ _ _ _ Hi2) as [_ _ _ Hiss2 Ho2 Hr2 Ht2].
  exists h1, (Project.with_issues p2 (<[k:=i2]> (Project.issues p2))), i2.
  split_and!; simpl; try done; [|by rewrite Hiss2].
  split; [done|]. simpl. intros k' i' Hk'.
  destruct (decide (k = k')) as [<-|Hne].
  - rewrite lookup_insert_eq in Hk'. simplify_eq. by exists i.
  - rewrite lookup_insert_ne in Hk' by done. rewrite Hiss2 in Hk'.
    destruct (Hiss _ _ Hk') as (i'' & ? & ?). exists i''. split; [done|].
    by eapply issueIs_le.
Qed.

(** The files of a saved store, read one after the other, in any order. *)
Lemma loadFiles_roundtrip h p (d : Disk) names : ∀ h' p',
  store_wf h p → storeInterned h p → loaded h p h' p' →
  (∀ k i, Project.issues p !! k = Some i →
          d !! Sprintf_d k = Some (IssueDoc (marshalIssue h i))) →
  (∀ name, name ∈ names →
     ∃ k i, Project.issues p !! k = Some i ∧ name = Sprintf_d k) →
  ∃ h'' p'', loadFiles h' d p' names = Ok (h'', p'')
    ∧ loaded h p h'' p''
    ∧ (∀ k, is_Some (Project.issues p'' !! k)
            ↔ is_Some (Project.issues p' !! k)
              ∨ (is_Some (Project.issues p !! k) ∧ Sprintf_d k ∈ names))
    ∧ Project.Owner p'' = Project.Owner p'
    ∧ Project.Repo p'' = Project.Repo p'
    ∧ Project.RefreshedAt p'' = Project.RefreshedAt p'.
Proof.
  induction names as [|name names IH]; intros h' p' Hwf Hint Hl Hd Hnames.
  - exists h', p'. split_and!; try done. intros k. split; [by left|].
    intros [?|[_ ?%elem_of_nil]]; done.
  - destruct (Hnames name) as (k & i & Hk & ->); [by left|].
    destruct (Hint _ _ Hk) as (_ & Hk0 & Hrange & _).
    destruct (ingest_roundtrip h p d h' p' k i) as
      (h1 & p1 & i1 & Hing & Hl1 & Hiss1 & Ho1 & Hr1 & Ht1); [by auto..|].
    rewrite loadFiles_ingest by (by rewrite Atoi_Sprintf_d).
    rewrite Hing. simpl.
    destruct (IH h1 p1) as (h2 & p2 & Hload & Hl2 & Hdom & Ho2 & Hr2 & Ht2);
      [done..|intros; apply Hnames; by right|].
    exists h2, p2. split_and!; try congruence. intros k'. rewrite Hdom, Hiss1.
    split.
    + intros [Hin|[Hp Hin]]; [|right; split; [done|by right]].
      destruct (decide (k = k')) as [<-|Hne].
      * right. split; [by eexists|by left].
      * left. by rewrite lookup_insert_ne in Hin.
    + intros [Hin|[Hp Hin]].
      * left. destruct (decide (k = k')) as [<-|Hne].
        -- rewrite lookup_insert_eq. by eexists.
        -- by rewrite lookup_insert_ne.
      * apply elem_of_cons in Hin as [Heq|Hin]; [|right; by split].
        left. destruct Hp as [i' Hk'].
        destruct (Hint _ _ Hk') as (_ & _ & Hrange' & _).
        apply Sprintf_d_inj in Heq; [|done..]. subst k'.
        rewrite lookup_insert_eq. by eexists.
Qed.
